(** * File Integrity Checker ([final_py/fic.py]): a shallow embedding

    The development follows the layout of the script: Python's [str]
    primitives used by the tool, the SHA-256 accumulator of [hashlib], the
    path list store ([iter_list_paths], [cmd_add], [cmd_remove]), the hasher
    ([sha256_of_file], [hash_files_from_list]), the hash store codec
    ([parse_hash_file]) and the comparison loop of [cmd_check]. *)

From Stdlib Require Import NArith List String Ascii Lia Bool DecimalString.
From stdpp Require Import base list gmap sorting.
From Equations Require Import Equations.

Local Open Scope N_scope.

(** ** Python strings

    A [str] is a sequence of Unicode code points; a [bytes] value is a
    sequence of octets.  Both are lists of [N]. *)

Abbreviation char := N (only parsing).
Abbreviation str := (list N) (only parsing).
Abbreviation bytes := (list N) (only parsing).

(** Literals are written as Rocq strings and read as their code points. *)
Definition py (s : string) : str :=
  map N_of_ascii (list_ascii_of_string s).
Arguments py s%_string.

Definition LF : char := 10.
Definition CR : char := 13.
Definition SPACE : char := 32.
Definition STAR : char := 42.
Definition HASH : char := 35.

(** [str.isspace] on one code point: the characters removed by [strip()] and
    separating the fields of [split()]. *)
Definition isspace (c : char) : bool :=
  ((9 <=? c) && (c <=? 13)) || ((28 <=? c) && (c <=? 32))
  || (c =? 133) || (c =? 160) || (c =? 5760)
  || ((8192 <=? c) && (c <=? 8202))
  || (c =? 8232) || (c =? 8233) || (c =? 8239) || (c =? 8287) || (c =? 12288).

(** The line boundaries recognised by [str.splitlines]. *)
Definition islinebreak (c : char) : bool :=
  ((10 <=? c) && (c <=? 13)) || ((28 <=? c) && (c <=? 30))
  || (c =? 133) || (c =? 8232) || (c =? 8233).

(** [s.lstrip(chars)] / [s.rstrip(chars)], with the character set given as a
    predicate. *)
Fixpoint lstrip_with (f : char → bool) (s : str) : str :=
  match s with
  | [] => []
  | c :: s' => if f c then lstrip_with f s' else s
  end.

Definition rstrip_with (f : char → bool) (s : str) : str :=
  rev (lstrip_with f (rev s)).

Definition in_chars (cs : str) (c : char) : bool := existsb (N.eqb c) cs.

(** [s.strip()] *)
Definition strip (s : str) : str :=
  rstrip_with isspace (lstrip_with isspace s).

(** [s.startswith(p)] *)
Fixpoint startswith (s p : str) : bool :=
  match p, s with
  | [], _ => true
  | _ :: _, [] => false
  | a :: p', b :: s' => (a =? b) && startswith s' p'
  end.

(** [s == t] on strings. *)
Definition str_eqb (s t : str) : bool := bool_decide (s = t).

(** [s.splitlines()]: [cur] is the line being read, most recent character
    first.  A carriage return directly followed by a line feed is one
    boundary; no empty last line is produced after a final boundary. *)
Fixpoint splitlines_from (cur : str) (s : str) : list str :=
  match s with
  | [] => match cur with [] => [] | _ => [rev cur] end
  | c :: s' =>
      if islinebreak c then
        if c =? CR then
          match s' with
          | d :: s'' =>
              if d =? LF then rev cur :: splitlines_from [] s''
              else rev cur :: splitlines_from [] s'
          | [] => rev cur :: splitlines_from [] s'
          end
        else rev cur :: splitlines_from [] s'
      else splitlines_from (c :: cur) s'
  end.

Definition splitlines (s : str) : list str := splitlines_from [] s.

(** [sep.join(parts)] *)
Fixpoint join (sep : str) (parts : list str) : str :=
  match parts with
  | [] => []
  | [x] => x
  | x :: rest => x ++ sep ++ join sep rest
  end.

(** [Path.read_text(encoding="utf-8")] opens the file in text mode with
    universal newlines: a carriage return, alone or followed by a line feed,
    is handed to the program as one line feed.  [raw] is the decoded text of
    the file.  ([write_text] on POSIX writes the string unchanged.) *)
Fixpoint read_text (raw : str) : str :=
  match raw with
  | [] => []
  | c :: s' =>
      if c =? CR then
        match s' with
        | d :: s'' =>
            if d =? LF then LF :: read_text s'' else LF :: read_text s'
        | [] => [LF]
        end
      else c :: read_text s'
  end.

(** The longest prefix of non-whitespace characters and what follows it. *)
Fixpoint span_field (s : str) : str * str :=
  match s with
  | [] => ([], [])
  | c :: s' =>
      if isspace c then ([], s)
      else let '(tok, rest) := span_field s' in (c :: tok, rest)
  end.

(** [s.split(maxsplit=1)]: skip leading whitespace, take one field, skip the
    whitespace after it and keep everything else, trailing whitespace
    included, as the second part. *)
Definition split_maxsplit1 (s : str) : list str :=
  match lstrip_with isspace s with
  | [] => []
  | s1 =>
      let '(tok, rest) := span_field s1 in
      match lstrip_with isspace rest with
      | [] => [tok]
      | rem => [tok; rem]
      end
  end.

(** Python compares strings code point by code point. *)
Fixpoint str_ltb (s t : str) : bool :=
  match s, t with
  | _, [] => false
  | [], _ :: _ => true
  | a :: s', b :: t' => (a <? b) || ((a =? b) && str_ltb s' t')
  end.

Definition str_lt (s t : str) : Prop := str_ltb s t = true.

(** ** Exceptions

    The exceptions the script meets: the [OSError] of a failing system
    call, the [UnicodeEncodeError] of a text that UTF-8 cannot encode, and
    the [SystemExit] raised by [die]. *)

Inductive exn :=
  | OSError
  | UnicodeEncodeError
  | SystemExit (code : N).

Inductive result (A : Type) :=
  | Ok (a : A)
  | Raise (e : exn).
Arguments Ok {A} a.
Arguments Raise {A} e.

Global Instance result_fmap : FMap result := λ A B f r,
  match r with Ok a => Ok (f a) | Raise e => Raise e end.

(** ** Path list store *)

Section PathList.
(** [home_join rest] stands for [str(Path.home() / rest)]: the join is
    done by [pathlib] against the home directory of the running user. *)
Variable home_join : str → str.

(** One step of the loop of [iter_list_paths]. *)
Definition list_entry (raw : str) : option str :=
  let line := strip raw in
  if bool_decide (line = []) || startswith line [HASH] then None
  else if startswith line (py "~/") then Some (home_join (drop 2 line))
  else Some line.

(** [iter_list_paths]: the paths of an existing list file holding [raw]. *)
Definition iter_list_paths (raw : str) : list str :=
  omap list_entry (splitlines (read_text raw)).
End PathList.

(** The code points UTF-8 encodes: all but the surrogates, which a string
    taken from [sys.argv] can hold. *)
Definition is_surrogate (c : char) : bool := (0xD800 <=? c) && (c <=? 0xDFFF).
Definition encodable (s : str) : bool :=
  forallb (λ c, negb (is_surrogate c) && (c <=? 0x10FFFF)) s.

(** [f.write(s)] on a text file opened for append that holds [file], as
    seen once the file is closed: the whole of [s] is encoded before any of
    it is written. *)
Definition f_write (s : str) (file : str) : str * result unit :=
  if encodable s then (file ++ s, Ok tt) else (file, Raise UnicodeEncodeError).

(** [cmd_add]: the content of the list file after the command, given the
    content [raw] it held before, and how the command ended.  The file is
    opened in append mode, so the new content is the old one followed by
    what is written; the separating line feed is written before the path
    is encoded. *)
Definition cmd_add (path : str) (raw : str) : str * result unit :=
  let existing := splitlines (read_text raw) in
  if existsb (λ line, str_eqb (strip line) path) existing then (raw, Ok tt)
  else
    let sep :=
      match last existing with
      | Some l => if negb (str_eqb l []) then [LF] else []
      | None => []
      end in
    f_write (path ++ [LF]) (raw ++ sep).

(** [cmd_remove]: the content the list file is rewritten with. *)
Definition cmd_remove (path : str) (raw : str) : str :=
  let lines := splitlines (read_text raw) in
  let new_lines := filter (λ ln, strip ln ≠ path) lines in
  join [LF] new_lines ++ [LF].

(** ** [hashlib.sha256]

    The accumulator object of the standard library, after FIPS 180-4.
    Words are 32-bit unsigned integers held in [N]; every addition wraps
    modulo [2^32]. *)

Module SHA256.

Definition add32 (x y : N) : N := (x + y) mod 0x100000000.
Definition rotr (n x : N) : N :=
  N.lor (N.shiftr x n) (N.shiftl x (32 - n)) mod 0x100000000.
Definition shr (n x : N) : N := N.shiftr x n.
Definition not32 (x : N) : N := N.lxor x 0xffffffff.

Definition Ch (x y z : N) : N := N.lxor (N.land x y) (N.land (not32 x) z).
Definition Maj (x y z : N) : N :=
  N.lxor (N.lxor (N.land x y) (N.land x z)) (N.land y z).
Definition Sigma0 (x : N) : N :=
  N.lxor (N.lxor (rotr 2 x) (rotr 13 x)) (rotr 22 x).
Definition Sigma1 (x : N) : N :=
  N.lxor (N.lxor (rotr 6 x) (rotr 11 x)) (rotr 25 x).
Definition sigma0 (x : N) : N :=
  N.lxor (N.lxor (rotr 7 x) (rotr 18 x)) (shr 3 x).
Definition sigma1 (x : N) : N :=
  N.lxor (N.lxor (rotr 17 x) (rotr 19 x)) (shr 10 x).

(** The constants of the standard are derived from the first primes: the
    first 32 bits of the fractional part of their cube roots (round
    constants) and of their square roots (initial chaining value). *)
Definition is_prime (n : N) : bool :=
  (2 <=? n)
  && forallb (λ d, negb (n mod d =? 0))
       (map N.of_nat (seq 2 (N.to_nat n - 2))).

Definition primes (count : nat) : list N :=
  firstn count (List.filter is_prime (map N.of_nat (seq 2 310))).

(** The integer cube root, found bit by bit from bit 35 down. *)
Definition icbrt (n : N) : N :=
  fold_left (λ r i, let r' := r + 2 ^ i in
                    if r' * r' * r' <=? n then r' else r)
    (map N.of_nat (rev (seq 0 36))) 0.

Definition frac32_cbrt (p : N) : N := icbrt (p * 2 ^ 96) mod 0x100000000.
Definition frac32_sqrt (p : N) : N := N.sqrt (p * 2 ^ 64) mod 0x100000000.

Definition K : list N := Eval vm_compute in map frac32_cbrt (primes 64).

(** The eight working words. *)
Record words8 := W8 { wa : N; wb : N; wc : N; wd : N;
                      we : N; wf : N; wg : N; wh : N }.

Definition H0 : words8 :=
  Eval vm_compute in
    match map frac32_sqrt (primes 8) with
    | [a; b; c; d; e; f; g; h] => W8 a b c d e f g h
    | _ => W8 0 0 0 0 0 0 0 0
    end.

(** Big-endian words of a block. *)
Fixpoint words_of_block (bs : bytes) : list N :=
  match bs with
  | b0 :: b1 :: b2 :: b3 :: rest =>
      N.lor (N.lor (N.shiftl b0 24) (N.shiftl b1 16))
            (N.lor (N.shiftl b2 8) b3) :: words_of_block rest
  | _ => []
  end.

(** The message schedule, newest word first: [n] more words are derived
    from the sixteen before each of them. *)
Fixpoint extend (n : nat) (wr : list N) : list N :=
  match n with
  | O => wr
  | S n' =>
      let w := add32 (add32 (sigma1 (nth 1 wr 0)) (nth 6 wr 0))
                     (add32 (sigma0 (nth 14 wr 0)) (nth 15 wr 0)) in
      extend n' (w :: wr)
  end.

Definition schedule (block : bytes) : list N :=
  rev (extend 48 (rev (words_of_block block))).

Definition round (s : words8) (kw : N * N) : words8 :=
  let '(k, w) := kw in
  let t1 := add32 (add32 (add32 (add32 (wh s) (Sigma1 (we s)))
                                (Ch (we s) (wf s) (wg s))) k) w in
  let t2 := add32 (Sigma0 (wa s)) (Maj (wa s) (wb s) (wc s)) in
  W8 (add32 t1 t2) (wa s) (wb s) (wc s)
     (add32 (wd s) t1) (we s) (wf s) (wg s).

(** The compression function applied to one 64-byte block. *)
Definition compress (hv : words8) (block : bytes) : words8 :=
  let s := fold_left round (combine K (schedule block)) hv in
  W8 (add32 (wa hv) (wa s)) (add32 (wb hv) (wb s))
     (add32 (wc hv) (wc s)) (add32 (wd hv) (wd s))
     (add32 (we hv) (we s)) (add32 (wf hv) (wf s))
     (add32 (wg hv) (wg s)) (add32 (wh hv) (wh s)).

(** The object: chaining value, bytes not yet compressed (fewer than 64)
    and the number of bytes fed so far. *)
Record t := Obj { hv : words8; pending : bytes; total : N }.

(** [hashlib.sha256()] *)
Definition new : t := Obj H0 [] 0.

Definition feed (o : t) (b : N) : t :=
  let buf := pending o ++ [b] in
  if (length buf =? 64)%nat then Obj (compress (hv o) buf) [] (total o + 1)
  else Obj (hv o) buf (total o + 1).

(** [h.update(data)] *)
Definition update (o : t) (data : bytes) : t := fold_left feed data o.

Definition be_bytes (n : nat) (x : N) : bytes :=
  map (λ i, N.shiftr x (8 * N.of_nat i) mod 256) (rev (seq 0 n)).

(** Padding of a message of [len] bytes: a one bit, zeros up to 56 modulo
    64, and the bit length on eight bytes. *)
Definition padding (len : N) : bytes :=
  [0x80] ++ repeat 0 (N.to_nat ((119 - len mod 64) mod 64))
         ++ be_bytes 8 (8 * len).

(** The chaining value as 32 bytes, and bytes as lowercase hexadecimal. *)
Definition word_bytes (v : words8) : bytes :=
  flat_map (be_bytes 4)
    [wa v; wb v; wc v; wd v; we v; wf v; wg v; wh v].

Definition hexdigit (d : N) : char := if d <? 10 then 48 + d else 87 + d.

Definition hex (bs : bytes) : str :=
  flat_map (λ b, [hexdigit (b / 16); hexdigit (b mod 16)]) bs.

(** [h.digest()] *)
Definition digest (o : t) : bytes :=
  word_bytes (hv (update o (padding (total o)))).

(** [h.hexdigest()] *)
Definition hexdigest (o : t) : str := hex (digest o).

(** The hash of a whole message as the standard states it: the padded
    message is cut into 64-byte blocks, and the blocks are compressed in
    turn from the initial chaining value. *)
Fixpoint blocks_upto (count : nat) (bs : bytes) : list bytes :=
  match count with
  | O => []
  | S c => take 64 bs :: blocks_upto c (drop 64 bs)
  end.

Definition blocks (bs : bytes) : list bytes :=
  blocks_upto (length bs / 64) bs.

Definition hash (msg : bytes) : bytes :=
  word_bytes
    (fold_left compress
       (blocks (msg ++ padding (N.of_nat (length msg)))) H0).

End SHA256.

(** ** Hasher *)

(** What the operating system does when a regular file is opened and
    read: nothing special, a failure of [open], or a failure of the [k]-th
    call of [read] (counted from 0). *)
Inductive fault :=
  | NoFault
  | OpenRaises
  | ReadRaises (k : nat).

Record regular_file := RegularFile { content : bytes; io : fault }.

(** What a path resolves to when [Path.is_file] looks it up: a regular
    file, something else or nothing at all, or a failure of the lookup
    that [is_file] does not swallow (permission denied on the way to the
    path, a name that is too long): [is_file] answers [False] only for the
    errors that mean the path is not there, and lets the other [OSError]s
    through. *)
Inductive node :=
  | NotAFile
  | IsFile (f : regular_file)
  | StatRaises.

Definition is_file (nd : node) : result bool :=
  match nd with
  | IsFile _ => Ok true
  | NotAFile => Ok false
  | StatRaises => Raise OSError
  end.

(** [f.read(n)] on the unread part of the file: the bytes returned and the
    bytes left. *)
Fixpoint read (n : N) (rest : bytes) : bytes * bytes :=
  match rest with
  | [] => ([], [])
  | b :: rest' =>
      if n =? 0 then ([], rest)
      else let '(c, r) := read (N.pred n) rest' in (b :: c, r)
  end.

Definition read_raises (flt : fault) (k : nat) : bool :=
  match flt with
  | ReadRaises j => bool_decide (j = k)
  | _ => false
  end.

Definition inspect {A} (a : A) : {b | a = b} := exist _ a eq_refl.

(** The loop [for chunk in iter(lambda: f.read(n), b""): h.update(chunk)];
    [k] counts the calls of [read] made so far. *)
Equations? hash_chunks (n : N) (flt : fault) (k : nat) (h : SHA256.t)
    (rest : bytes) : result SHA256.t by wf (length rest) lt :=
  hash_chunks n flt k h rest with read_raises flt k => {
    | true := Raise OSError
    | false with inspect (read n rest) => {
        | exist _ ([], _) _ := Ok h
        | exist _ (c :: chunk, rest') e :=
            hash_chunks n flt (S k) (SHA256.update h (c :: chunk)) rest' } }.
Proof.
  clear hash_chunks.
  assert (L : ∀ m l,
    (length (read m l).1 + length (read m l).2 = length l)%nat).
  { intros m l; revert m; induction l as [|b l IH]; intros m; simpl; [done|].
    destruct (m =? 0); simpl; [done|]. specialize (IH (N.pred m)).
    destruct (read (N.pred m) l); simpl in *; lia. }
  specialize (L n rest). rewrite e in L. simpl in L. lia.
Qed.

Definition CHUNK : N := 1024 * 1024.

(** [sha256_of_file]: the hexadecimal digest, or the [OSError] raised by
    [open] or [read]. *)
Definition sha256_of_file (f : regular_file) : result str :=
  match io f with
  | OpenRaises => Raise OSError
  | flt =>
      match hash_chunks CHUNK flt 0 SHA256.new (content f) with
      | Ok h => Ok (SHA256.hexdigest h)
      | Raise e => Raise e
      end
  end.

Section Scan.
Variable home_join : str → str.
(** The file system as seen by [Path(p)]. *)
Variable fs : str → node.

(** The body of the loop of [hash_files_from_list]: the line appended for
    the listed path [p].  The test [path.is_file()] stands outside the
    [try], so what it raises leaves the loop; [except OSError] covers
    [sha256_of_file] only. *)
Definition hash_line (p : str) : result str :=
  match fs p with
  | StatRaises => Raise OSError
  | IsFile f =>
      match sha256_of_file f with
      | Ok digest => Ok (digest ++ py "  " ++ p)
      | Raise OSError => Ok (py "ERROR  " ++ p)
      | Raise e => Raise e
      end
  | NotAFile => Ok (py "MISSING  " ++ p)
  end.

(** The loop over the listed paths, from the [lines] gathered so far. *)
Fixpoint hash_lines (paths : list str) (lines : list str)
    : result (list str) :=
  match paths with
  | [] => Ok lines
  | p :: paths' =>
      match hash_line p with
      | Ok line => hash_lines paths' (lines ++ [line])
      | Raise e => Raise e
      end
  end.

(** [hash_files_from_list]: the text written to [out_file] for a list
    file holding [raw], or the exception that left the loop, in which case
    [out_file] is neither opened nor written. *)
Definition hash_files_from_list (raw : str) : result str :=
  match hash_lines (iter_list_paths home_join raw) [] with
  | Ok lines =>
      Ok (join [LF] lines ++ (match lines with [] => [] | _ => [LF] end))
  | Raise e => Raise e
  end.
End Scan.

(** ** Hash store codec *)

(** The body of the loop of [parse_hash_file]. *)
Definition parse_line (mapping : gmap str str) (raw : str) : gmap str str :=
  let line := rstrip_with (in_chars [CR; LF]) raw in
  match line with
  | [] => mapping
  | _ =>
      match split_maxsplit1 line with
      | [h; rest] =>
          <[lstrip_with (in_chars [SPACE; STAR]) rest := h]> mapping
      | _ => mapping
      end
  end.

(** [parse_hash_file] on an existing store file holding [raw]. *)
Definition parse_hash_file (raw : str) : gmap str str :=
  fold_left parse_line (splitlines (read_text raw)) ∅.

(** ** Comparison of a scan with the baseline ([cmd_check]) *)

(** Python's [<] on [(path, hash)] tuples and the order [sorted] builds from
    it: [x] stays before [y] unless [y < x]. *)
Definition item_lt (x y : str * str) : Prop :=
  if decide (x.1 = y.1) then str_lt x.2 y.2 else str_lt x.1 y.1.
Definition item_le (x y : str * str) : Prop := ¬ item_lt y x.
Definition key_le (x y : str) : Prop := ¬ str_lt y x.

Global Instance str_lt_dec s t : Decision (str_lt s t).
Proof. unfold str_lt. apply _. Defined.
Global Instance item_lt_dec x y : Decision (item_lt x y).
Proof. unfold item_lt. destruct (decide (x.1 = y.1)); apply _. Defined.
Global Instance item_le_dec x y : Decision (item_le x y).
Proof. unfold item_le. apply _. Defined.
Global Instance key_le_dec x y : Decision (key_le x y).
Proof. unfold key_le. apply _. Defined.

(** [sorted(base.items())] *)
Definition sorted_items (base : gmap str str) : list (str * str) :=
  merge_sort item_le (map_to_list base).

(** [sorted(scan.keys() - base.keys())] *)
Definition sorted_new_keys (base scan : gmap str str) : list str :=
  merge_sort key_le (elements (dom scan ∖ dom base)).

(** [str(n)] for a count. *)
Definition str_of_int (n : N) : str :=
  py (NilZero.string_of_uint (N.to_uint n)).

Section Check.
Variable LOG_FILE : str.

(** The comparison threads the messages handed to [log], oldest first,
    and the counter [changes]. *)
Definition log_change (st : list str * N) (message : str) : list str * N :=
  (st.1 ++ [message], st.2 + 1).

(** Body of the loop over the baseline entries. *)
Definition check_entry (scan : gmap str str) (st : list str * N)
    (item : str * str) : list str * N :=
  let '(path, bhash) := item in
  match scan !! path with
  | None => log_change st (py "MISSING (not scanned): " ++ path)
  | Some shash =>
      if str_eqb shash (py "MISSING") then
        log_change st (py "MISSING: " ++ path)
      else if str_eqb shash (py "ERROR") then
        log_change st (py "ERROR (could not hash): " ++ path)
      else if negb (str_eqb bhash shash) then
        log_change st (py "MODIFIED: " ++ path)
      else st
  end.

(** Body of the loop over the paths that are new in the scan. *)
Definition check_new (st : list str * N) (path : str) : list str * N :=
  log_change st (py "NEW (in list now, not in baseline): " ++ path).

(** The two loops of [cmd_check], from [changes = 0]. *)
Definition compare (base scan : gmap str str) : list str * N :=
  let st := fold_left (check_entry scan) (sorted_items base) ([], 0) in
  fold_left check_new (sorted_new_keys base scan) st.

(** The closing message. *)
Definition verdict (changes : N) : str :=
  if changes =? 0 then py "OK: No changes detected."
  else py "ALERT: Detected " ++ str_of_int changes
       ++ py " change(s). See log: " ++ LOG_FILE.

(** Everything [cmd_check] logs after the scan, for the parsed stores. *)
Definition report (base scan : gmap str str) : list str :=
  let '(logged, changes) := compare base scan in
  [py "Scan complete. Comparing with baseline..."] ++ logged
  ++ [verdict changes].
End Check.

(** ** Store files on disk ([cmd_init], [cmd_check]) *)

(** [BASELINE], [LAST_SCAN] and the two side paths [DB_DIR / ".baseline_tmp"]
    and [DB_DIR / ".scan_tmp"]. *)
Inductive store_file := BASELINE | LAST_SCAN | BASELINE_TMP | SCAN_TMP.

Global Instance store_file_eq_dec : EqDecision store_file.
Proof. solve_decision. Defined.

(** The content of each of them, [None] when the file does not exist. *)
Record disk := Disk {
  baseline : option str;
  last_scan : option str;
  baseline_tmp : option str;
  scan_tmp : option str
}.

Definition get (p : store_file) (d : disk) : option str :=
  match p with
  | BASELINE => baseline d
  | LAST_SCAN => last_scan d
  | BASELINE_TMP => baseline_tmp d
  | SCAN_TMP => scan_tmp d
  end.

Definition put (p : store_file) (v : option str) (d : disk) : disk :=
  match p with
  | BASELINE => Disk v (last_scan d) (baseline_tmp d) (scan_tmp d)
  | LAST_SCAN => Disk (baseline d) v (baseline_tmp d) (scan_tmp d)
  | BASELINE_TMP => Disk (baseline d) (last_scan d) v (scan_tmp d)
  | SCAN_TMP => Disk (baseline d) (last_scan d) (baseline_tmp d) v
  end.

(** The steps other processes can observe.  [Path.write_text] opens its
    target for writing, which creates or truncates the file, and then
    writes the text; [Path.replace] renames in one step. *)
Inductive fs_op :=
  | OpenTrunc (p : store_file)
  | WriteAll (p : store_file) (s : str)
  | Replace (src dst : store_file).

Definition apply_op (op : fs_op) (d : disk) : disk :=
  match op with
  | OpenTrunc p => put p (Some []) d
  | WriteAll p s => put p (Some s) d
  | Replace src dst => put src None (put dst (get src d) d)
  end.

Section Commands.
Variable home_join : str → str.
Variable fs : str → node.

(** [cmd_init] for an existing list file holding [raw]: the states of the
    store files after each step, in order, or the exception of the scan,
    which is raised before any store file is touched. *)
Definition cmd_init (raw : str) (d0 : disk) : result (list disk) :=
  match hash_files_from_list home_join fs raw with
  | Raise e => Raise e
  | Ok out =>
      let d1 := apply_op (OpenTrunc BASELINE_TMP) d0 in
      let d2 := apply_op (WriteAll BASELINE_TMP out) d1 in
      let d3 := apply_op (Replace BASELINE_TMP BASELINE) d2 in
      let copy := read_text (default [] (get BASELINE d3)) in
      let d4 := apply_op (OpenTrunc LAST_SCAN) d3 in
      let d5 := apply_op (WriteAll LAST_SCAN copy) d4 in
      Ok [d1; d2; d3; d4; d5]
  end.

(** [cmd_check] for an existing list file holding [raw]: the [SystemExit]
    of [die] when there is no baseline, the exception of the scan, raised
    before any store file is touched, or else the states of the store
    files after each step and the two parsed stores it compares. *)
Definition cmd_check (raw : str) (d0 : disk)
    : result (list disk * (gmap str str * gmap str str)) :=
  match get BASELINE d0 with
  | None => Raise (SystemExit 1)
  | Some _ =>
      match hash_files_from_list home_join fs raw with
      | Raise e => Raise e
      | Ok out =>
          let d1 := apply_op (OpenTrunc SCAN_TMP) d0 in
          let d2 := apply_op (WriteAll SCAN_TMP out) d1 in
          let d3 := apply_op (Replace SCAN_TMP LAST_SCAN) d2 in
          let base := parse_hash_file (default [] (get BASELINE d3)) in
          let scan := parse_hash_file (default [] (get LAST_SCAN d3)) in
          Ok ([d1; d2; d3], (base, scan))
      end
  end.
End Commands.

(** ** Vocabulary of the specification *)

(** The result of hashing one path, and the token that stands for it in a
    store line. *)
Inductive Outcome :=
  | Digest (hex : str)
  | Missing
  | Error.

Definition token (o : Outcome) : str :=
  match o with
  | Digest hex => hex
  | Missing => py "MISSING"
  | Error => py "ERROR"
  end.

(** A digest is 64 lowercase hexadecimal characters. *)
Definition is_hex (c : char) : bool :=
  ((48 <=? c) && (c <=? 57)) || ((97 <=? c) && (c <=? 102)).
Definition is_digest (s : str) : Prop :=
  length s = 64%nat ∧ forallb is_hex s = true.

Definition valid_outcome (o : Outcome) : Prop :=
  match o with Digest hex => is_digest hex | _ => True end.

(** The outcome recorded for a path by one pass of the hasher, or the
    exception that ends the pass at this path. *)
Definition outcome_of (fs : str → node) (p : str) : result Outcome :=
  match fs p with
  | StatRaises => Raise OSError
  | NotAFile => Ok Missing
  | IsFile f =>
      match sha256_of_file f with
      | Ok digest => Ok (Digest digest)
      | Raise OSError => Ok Error
      | Raise e => Raise e
      end
  end.

(** The entries a pass of the hasher that reaches its end records for the
    listed paths: one for each, in their order. *)
Definition records (fs : str → node) (paths : list str)
    (entries : list (str * Outcome)) : Prop :=
  Forall2 (λ p e, e.1 = p ∧ outcome_of fs p = Ok e.2) paths entries.

(** The store line of an entry and the text of a store. *)
Definition store_line (e : str * Outcome) : str :=
  token e.2 ++ [SPACE; SPACE] ++ e.1.

Definition write_store (entries : list (str * Outcome)) : str :=
  flat_map (λ e, store_line e ++ [LF]) entries.

(** The mapping a store stands for: later entries win. *)
Definition store_mapping (entries : list (str * Outcome)) : gmap str str :=
  fold_left (λ m e, <[e.1 := token e.2]> m) entries ∅.

(** The classes of the diff and the message logged for each. *)
Inductive Finding :=
  | FMissingNotScanned (path : str)
  | FMissing (path : str)
  | FError (path : str)
  | FModified (path : str)
  | FNew (path : str).

Definition finding_message (f : Finding) : str :=
  match f with
  | FMissingNotScanned p => py "MISSING (not scanned): " ++ p
  | FMissing p => py "MISSING: " ++ p
  | FError p => py "ERROR (could not hash): " ++ p
  | FModified p => py "MODIFIED: " ++ p
  | FNew p => py "NEW (in list now, not in baseline): " ++ p
  end.

(** First phase, one baseline entry. *)
Definition classify (scan : gmap str str) (path bhash : str) : list Finding :=
  match scan !! path with
  | None => [FMissingNotScanned path]
  | Some shash =>
      if decide (shash = py "MISSING") then [FMissing path]
      else if decide (shash = py "ERROR") then [FError path]
      else if decide (bhash = shash) then []
      else [FModified path]
  end.

(** The findings of the two phases, as the loops produce them. *)
Definition phase1 (base scan : gmap str str) : list Finding :=
  sorted_items base ≫= (λ it, classify scan it.1 it.2).
Definition phase2 (base scan : gmap str str) : list Finding :=
  FNew <$> sorted_new_keys base scan.

(** A string without line boundary characters. *)
Definition nolb (l : str) : Prop := Forall (λ c, islinebreak c = false) l.

(** The number of line feeds a text ends with. *)
Fixpoint leading (c : char) (s : str) : nat :=
  match s with
  | d :: s' => if d =? c then S (leading c s') else O
  | [] => O
  end.
Definition trailing_newlines (s : str) : nat := leading LF (rev s).

(** The number of lines of a list file whose trimmed content is [path]. *)
Definition occurrences (path : str) (raw : str) : nat :=
  length (filter (λ ln, strip ln = path) (splitlines (read_text raw))).

(** The standard SHA-256 digest of a whole byte string, in hexadecimal. *)
Definition sha256_whole (data : bytes) : str :=
  SHA256.hex (SHA256.hash data).


(** A string without whitespace. *)
Definition no_whitespace (p : str) : Prop :=
  Forall (λ c, isspace c = false) p.

(** A list line that [iter_list_paths] yields unchanged: not empty, without
    surrounding whitespace or line boundary, neither a comment nor written
    with the home shorthand. *)
Definition plain_entry (p : str) : Prop :=
  p ≠ [] ∧ strip p = p ∧ nolb p
  ∧ startswith p [HASH] = false ∧ startswith p (py "~/") = false.

(** A path the store codec gives back as it was written: not empty, without
    line boundary, and not starting with whitespace or an asterisk. *)
Definition storable (p : str) : Prop :=
  p ≠ [] ∧ nolb p ∧ ∀ c, head p = Some c → isspace c = false ∧ c ≠ STAR.

(** The path a finding is about. *)
Definition finding_path (f : Finding) : str :=
  match f with
  | FMissingNotScanned p | FMissing p | FError p | FModified p | FNew p => p
  end.


(** Every token [parse_hash_file] records is a non-empty word, and no key
    starts with a space or an asterisk. *)
Definition clean_store (m : gmap str str) : Prop :=
  ∀ p t, m !! p = Some t →
    t ≠ [] ∧ no_whitespace t ∧ ∀ c, head p = Some c → c ≠ SPACE ∧ c ≠ STAR.


(** * Properties *)

(** ** The order on strings *)

Lemma str_lt_irrefl s : ¬ str_lt s s.
Proof.
  unfold str_lt. induction s as [|a s IH]; simpl; [done|].
  rewrite N.ltb_irrefl, N.eqb_refl. simpl. done.
Qed.

Lemma str_lt_trans s t u : str_lt s t → str_lt t u → str_lt s u.
Proof.
  unfold str_lt. revert t u.
  induction s as [|a s IH]; intros [|b t] [|c u]; simpl; try done.
  rewrite !orb_true_iff, !andb_true_iff, !N.ltb_lt, !N.eqb_eq.
  intros [?|[-> ?]] [?|[-> ?]]; eauto with lia.
Qed.

Lemma str_lt_trichotomy s t : str_lt s t ∨ s = t ∨ str_lt t s.
Proof.
  unfold str_lt. revert t.
  induction s as [|a s IH]; intros [|b t]; simpl; auto.
  rewrite !orb_true_iff, !andb_true_iff, !N.ltb_lt, !N.eqb_eq.
  destruct (N.lt_trichotomy a b) as [?|[->|?]]; auto.
  destruct (IH t) as [?|[->|?]]; auto.
Qed.

Lemma str_lt_asym s t : str_lt s t → ¬ str_lt t s.
Proof. intros H1 H2. exact (str_lt_irrefl s (str_lt_trans _ _ _ H1 H2)). Qed.

Global Instance key_le_total : Total key_le.
Proof.
  intros s t. unfold key_le.
  destruct (str_lt_trichotomy s t) as [H|[->|H]].
  - left. by apply str_lt_asym.
  - left. apply str_lt_irrefl.
  - right. by apply str_lt_asym.
Qed.

Lemma key_le_spec s t : key_le s t ↔ s = t ∨ str_lt s t.
Proof.
  unfold key_le. split.
  - intros H. destruct (str_lt_trichotomy s t) as [?|[?|?]]; tauto.
  - intros [->|H]; [apply str_lt_irrefl | by apply str_lt_asym].
Qed.

Global Instance key_le_trans : Transitive key_le.
Proof.
  intros s t u. rewrite !key_le_spec.
  intros [->|H1] [->|H2]; eauto using str_lt_trans.
Qed.

Lemma item_lt_irrefl x : ¬ item_lt x x.
Proof. unfold item_lt. rewrite decide_True by done. apply str_lt_irrefl. Qed.

Lemma item_lt_trans x y z : item_lt x y → item_lt y z → item_lt x z.
Proof.
  destruct x as [p1 h1], y as [p2 h2], z as [p3 h3]. unfold item_lt; simpl.
  destruct (decide (p1 = p2)) as [E12|N12], (decide (p2 = p3)) as [E23|N23],
    (decide (p1 = p3)) as [E13|N13]; subst; try congruence;
    intros L1 L2; eauto using str_lt_trans.
  destruct (str_lt_asym _ _ L1 L2).
Qed.

Lemma item_lt_trichotomy x y : item_lt x y ∨ x = y ∨ item_lt y x.
Proof.
  unfold item_lt. destruct x as [p1 h1], y as [p2 h2]; simpl.
  repeat case_decide; try congruence.
  - subst. destruct (str_lt_trichotomy h1 h2) as [?|[->|?]]; auto.
  - destruct (str_lt_trichotomy p1 p2) as [?|[->|?]]; auto. done.
Qed.

Lemma item_le_spec x y : item_le x y ↔ x = y ∨ item_lt x y.
Proof.
  unfold item_le. split.
  - intros H. destruct (item_lt_trichotomy x y) as [?|[?|?]]; tauto.
  - intros [->|H]; [apply item_lt_irrefl |].
    intros H'. exact (item_lt_irrefl x (item_lt_trans _ _ _ H H')).
Qed.

Global Instance item_le_total : Total item_le.
Proof.
  intros x y. rewrite !item_le_spec.
  destruct (item_lt_trichotomy x y) as [?|[?|?]]; auto.
Qed.

Global Instance item_le_trans : Transitive item_le.
Proof.
  intros x y z. rewrite !item_le_spec.
  intros [->|H1] [->|H2]; eauto using item_lt_trans.
Qed.

(** ** The comparison loops *)

Lemma strict_of_key_le (l : list str) :
  StronglySorted key_le l → NoDup l → StronglySorted str_lt l.
Proof.
  induction 1 as [|x l Hs IH Hx]; intros Hnd; constructor.
  - apply IH. by eapply NoDup_cons_1_2.
  - apply NoDup_cons in Hnd as [Hin _].
    apply Forall_forall. intros y Hy.
    rewrite Forall_forall in Hx. specialize (Hx y Hy).
    apply key_le_spec in Hx as [->|?]; [done|done].
Qed.

Lemma strict_of_item_le (l : list (str * str)) :
  StronglySorted item_le l → NoDup l.*1 → StronglySorted str_lt l.*1.
Proof.
  induction 1 as [|x l Hs IH Hx]; intros Hnd; simpl; constructor.
  - apply IH. by eapply NoDup_cons_1_2.
  - apply NoDup_cons in Hnd as [Hin _].
    apply Forall_fmap, Forall_forall. intros y Hy. simpl.
    rewrite Forall_forall in Hx. specialize (Hx y Hy).
    assert (x.1 ≠ y.1) as Hne.
    { intros E. apply Hin. rewrite E. by apply list_elem_of_fmap_2. }
    apply item_le_spec in Hx as [->|Hlt]; [done|].
    unfold item_lt in Hlt. by rewrite decide_False in Hlt.
Qed.

Lemma sorted_items_keys (base : gmap str str) :
  (sorted_items base).*1 ≡ₚ (map_to_list base).*1
  ∧ StronglySorted str_lt (sorted_items base).*1.
Proof.
  assert ((sorted_items base).*1 ≡ₚ (map_to_list base).*1) as HP.
  { unfold sorted_items. by rewrite merge_sort_Permutation. }
  split; [done|]. apply strict_of_item_le.
  - apply StronglySorted_merge_sort; apply _.
  - rewrite HP. apply NoDup_fst_map_to_list.
Qed.

Lemma sorted_new_keys_spec (base scan : gmap str str) :
  sorted_new_keys base scan ≡ₚ elements (dom scan ∖ dom base)
  ∧ StronglySorted str_lt (sorted_new_keys base scan).
Proof.
  assert (sorted_new_keys base scan ≡ₚ elements (dom scan ∖ dom base)) as HP.
  { unfold sorted_new_keys. by rewrite merge_sort_Permutation. }
  split; [done|]. apply strict_of_key_le.
  - apply StronglySorted_merge_sort; apply _.
  - rewrite HP. apply NoDup_elements.
Qed.

Lemma check_entry_classify scan st path bhash :
  check_entry scan st (path, bhash)
  = (st.1 ++ (finding_message <$> classify scan path bhash),
     st.2 + N.of_nat (length (classify scan path bhash))).
Proof.
  unfold check_entry, classify, log_change, str_eqb.
  destruct (scan !! path) as [shash|]; [|done].
  destruct (decide (shash = py "MISSING")) as [->|H1].
  { by rewrite bool_decide_eq_true_2. }
  rewrite (bool_decide_eq_false_2 _ H1).
  destruct (decide (shash = py "ERROR")) as [->|H2].
  { by rewrite bool_decide_eq_true_2. }
  rewrite (bool_decide_eq_false_2 _ H2).
  destruct (decide (bhash = shash)) as [->|H3].
  - rewrite bool_decide_eq_true_2 by done. simpl.
    rewrite app_nil_r, N.add_0_r. by destruct st.
  - by rewrite bool_decide_eq_false_2.
Qed.

Lemma fold_check_entry scan (l : list (str * str)) st :
  let found := l ≫= (λ it, classify scan it.1 it.2) in
  fold_left (check_entry scan) l st
  = (st.1 ++ (finding_message <$> found), st.2 + N.of_nat (length found)).
Proof.
  revert st. induction l as [|[p b] l IH]; intros st; cbn [fold_left].
  - simpl. rewrite app_nil_r, N.add_0_r. by destruct st.
  - rewrite IH, check_entry_classify. cbn.
    rewrite fmap_app, length_app, Nat2N.inj_add, app_assoc, N.add_assoc.
    done.
Qed.

Lemma fold_check_new (l : list str) st :
  fold_left check_new l st
  = (st.1 ++ (finding_message <$> (FNew <$> l)),
     st.2 + N.of_nat (length (FNew <$> l))).
Proof.
  revert st. induction l as [|p l IH]; intros st.
  - simpl. rewrite app_nil_r, N.add_0_r. by destruct st.
  - cbn [fold_left]. rewrite IH. unfold check_new, log_change. cbn.
    rewrite <- app_assoc. f_equal. lia.
Qed.

Lemma sorted_items_lookup (base : gmap str str) it :
  it ∈ sorted_items base → base !! it.1 = Some it.2.
Proof.
  unfold sorted_items. rewrite merge_sort_Permutation.
  destruct it. by rewrite elem_of_map_to_list.
Qed.

Lemma compare_phases (base scan : gmap str str) :
  compare base scan
  = (finding_message <$> (phase1 base scan ++ phase2 base scan),
     N.of_nat (length (phase1 base scan ++ phase2 base scan))).
Proof.
  unfold compare. rewrite fold_check_new, fold_check_entry. simpl.
  fold (phase1 base scan) (phase2 base scan).
  rewrite fmap_app, length_app, Nat2N.inj_add. done.
Qed.

Lemma phase1_by_path (base scan : gmap str str) :
  phase1 base scan
  = (sorted_items base).*1
      ≫= (λ p, classify scan p (default [] (base !! p))).
Proof.
  unfold phase1.
  assert (∀ it, it ∈ sorted_items base → base !! it.1 = Some it.2) as H
    by apply sorted_items_lookup.
  induction (sorted_items base) as [|it l IH]; [done|].
  cbn. rewrite IH.
  - rewrite (H it) by left. done.
  - intros ? ?. apply H. by right.
Qed.

(** C1. [cmd_check] compares in two phases.  The baseline paths are visited
    in strictly ascending order, each classified by [classify] (absent from
    the scan: not scanned; scan token MISSING: missing; scan token ERROR:
    error; other scan token different from the baseline token: modified;
    equal: nothing).  Then the paths of the scan that the baseline lacks
    are visited in strictly ascending order and reported as new.  The
    messages logged are those of the first phase followed by those of the
    second, and the counter is their number. *)
Theorem diff_two_phases (base scan : gmap str str) :
  ∃ ps qs : list str,
    ps ≡ₚ (map_to_list base).*1 ∧ StronglySorted str_lt ps
    ∧ qs ≡ₚ elements (dom scan ∖ dom base) ∧ StronglySorted str_lt qs
    ∧ let first := ps ≫= (λ p, classify scan p (default [] (base !! p))) in
      let second := FNew <$> qs in
      compare base scan
      = (finding_message <$> (first ++ second),
         N.of_nat (length (first ++ second))).
Proof.
  exists (sorted_items base).*1, (sorted_new_keys base scan).
  destruct (sorted_items_keys base) as [P1 S1].
  destruct (sorted_new_keys_spec base scan) as [P2 S2].
  repeat split; try done.
  cbv zeta. rewrite <- phase1_by_path. apply compare_phases.
Qed.

Lemma is_digest_not_sentinel s :
  is_digest s → s ≠ py "MISSING" ∧ s ≠ py "ERROR".
Proof. intros [Hlen _]. split; intros ->; discriminate Hlen. Qed.

Lemma classify_digests scan path bhash shash :
  scan !! path = Some shash → is_digest shash →
  classify scan path bhash = if decide (bhash = shash) then [] else [FModified path].
Proof.
  intros Hs [N1 N2]%is_digest_not_sentinel. unfold classify. rewrite Hs.
  by rewrite !decide_False by done.
Qed.

Lemma classify_nil scan path bhash :
  classify scan path bhash = [] →
  scan !! path = Some bhash ∧ bhash ≠ py "MISSING" ∧ bhash ≠ py "ERROR".
Proof.
  unfold classify. destruct (scan !! path) as [shash|]; [|done].
  repeat case_decide; try done. by subst.
Qed.

Lemma phase1_elem (base scan : gmap str str) path bhash f :
  base !! path = Some bhash → f ∈ classify scan path bhash →
  f ∈ phase1 base scan.
Proof.
  intros Hb Hf. unfold phase1. apply list_elem_of_bind.
  exists (path, bhash). split; [done|].
  unfold sorted_items. rewrite merge_sort_Permutation.
  by apply elem_of_map_to_list.
Qed.

Lemma verdict_ok LOG_FILE changes :
  verdict LOG_FILE changes = py "OK: No changes detected." → changes = 0.
Proof.
  unfold verdict. destruct (changes =? 0) eqn:E; [by apply N.eqb_eq in E|].
  intros H. discriminate H.
Qed.

Lemma compare_quiet (base scan : gmap str str) :
  (compare base scan).2 = 0 →
  phase1 base scan = [] ∧ phase2 base scan = [].
Proof.
  rewrite compare_phases. simpl. intros H.
  assert (length (phase1 base scan ++ phase2 base scan) = 0%nat) as H0 by lia.
  apply length_zero_iff_nil, app_eq_nil in H0. done.
Qed.

(** Equal sentinels are still reported. *)
Lemma compare_sentinels (base scan : gmap str str) p t :
  base !! p = Some t → scan !! p = Some t →
  (t = py "MISSING" → finding_message (FMissing p) ∈ (compare base scan).1)
  ∧ (t = py "ERROR" → finding_message (FError p) ∈ (compare base scan).1).
Proof.
  intros Hb Hs. rewrite compare_phases. cbn [fst].
  split; intros ->; apply list_elem_of_fmap_2, elem_of_app; left;
    eapply phase1_elem; eauto; unfold classify; rewrite Hs.
  - rewrite decide_True by done. left.
  - rewrite decide_False by done. rewrite decide_True by done. left.
Qed.

(** A comparison that counts no change found every path in both stores,
    with one and the same token that is no sentinel. *)
Lemma compare_ok_agree (base scan : gmap str str) :
  (compare base scan).2 = 0 →
  ∀ p, is_Some (base !! p) ∨ is_Some (scan !! p) →
    ∃ t, base !! p = Some t ∧ scan !! p = Some t
         ∧ t ≠ py "MISSING" ∧ t ≠ py "ERROR".
Proof.
  intros Hv. apply compare_quiet in Hv as [H1 H2].
  assert (∀ p b, base !! p = Some b →
    scan !! p = Some b ∧ b ≠ py "MISSING" ∧ b ≠ py "ERROR") as Hbase.
  { intros p b Hb. apply classify_nil.
    destruct (classify scan p b) as [|f l] eqn:E; [done|].
    assert (f ∈ phase1 base scan) as Hin.
    { eapply phase1_elem; eauto. rewrite E. left. }
    rewrite H1 in Hin. by apply elem_of_nil in Hin. }
  intros p [[b Hb]|[s Hs]].
  - exists b. destruct (Hbase p b Hb) as (? & ? & ?). done.
  - destruct (base !! p) as [b|] eqn:Hb.
    + exists b. destruct (Hbase p b Hb) as (? & ? & ?). done.
    + exfalso. unfold phase2 in H2. apply fmap_nil_inv in H2.
      assert (p ∈ sorted_new_keys base scan) as Hin.
      { unfold sorted_new_keys. rewrite merge_sort_Permutation.
        apply elem_of_elements, elem_of_difference.
        rewrite !elem_of_dom, Hs, Hb. split; [by eexists|].
        by intros [? ?]. }
      rewrite H2 in Hin. by apply elem_of_nil in Hin.
Qed.

(** ** Lines of a text *)

Lemma islinebreak_LF : islinebreak LF = true.
Proof. reflexivity. Qed.

Lemma islinebreak_CR : islinebreak CR = true.
Proof. reflexivity. Qed.

Lemma islinebreak_isspace c : islinebreak c = true → isspace c = true.
Proof.
  unfold islinebreak, isspace.
  rewrite !orb_true_iff, !andb_true_iff, !N.leb_le, !N.eqb_eq. lia.
Qed.

(** The defining equations of [splitlines_from], one per case. *)
Lemma sl_nil cur :
  splitlines_from cur [] = match cur with [] => [] | _ => [rev cur] end.
Proof. done. Qed.

Lemma sl_char cur c s :
  islinebreak c = false →
  splitlines_from cur (c :: s) = splitlines_from (c :: cur) s.
Proof. intros H. simpl. by rewrite H. Qed.

Lemma sl_crlf cur s :
  splitlines_from cur (CR :: LF :: s) = rev cur :: splitlines_from [] s.
Proof. done. Qed.

Lemma sl_cr cur s :
  head s ≠ Some LF →
  splitlines_from cur (CR :: s) = rev cur :: splitlines_from [] s.
Proof.
  intros H. cbn. destruct s as [|d s]; [done|].
  destruct (N.eqb_spec d LF) as [->|?]; [by destruct H|done].
Qed.

Lemma sl_break cur c s :
  islinebreak c = true → c ≠ CR →
  splitlines_from cur (c :: s) = rev cur :: splitlines_from [] s.
Proof.
  intros H1 H2. simpl. rewrite H1.
  by destruct (N.eqb_spec c CR).
Qed.

Arguments splitlines_from : simpl never.

(** Induction following the cases of [splitlines_from]. *)
Lemma splitlines_cases (P : str → Prop) :
  P [] →
  (∀ c s, islinebreak c = false → P s → P (c :: s)) →
  (∀ s, P s → P (CR :: LF :: s)) →
  (∀ s, head s ≠ Some LF → P s → P (CR :: s)) →
  (∀ c s, islinebreak c = true → c ≠ CR → P s → P (c :: s)) →
  ∀ s, P s.
Proof.
  intros Hnil Hchar Hcrlf Hcr Hbreak s.
  induction s as [s IH] using (induction_ltof1 _ (@length N)).
  unfold ltof in IH.
  destruct s as [|c s]; [done|].
  destruct (islinebreak c) eqn:Eb; [|apply Hchar; [done|apply IH; simpl; lia]].
  destruct (decide (c = CR)) as [->|Hc];
    [|apply Hbreak; [done|done|apply IH; simpl; lia]].
  destruct s as [|d s]; [apply Hcr; [done|done]|].
  destruct (decide (d = LF)) as [->|Hd].
  - apply Hcrlf, IH. simpl. lia.
  - apply Hcr; [simpl; congruence|apply IH; simpl; lia].
Qed.

Lemma read_text_char c s :
  c ≠ CR → read_text (c :: s) = c :: read_text s.
Proof. intros H. simpl. by destruct (N.eqb_spec c CR). Qed.

Lemma read_text_cr s :
  head s ≠ Some LF → read_text (CR :: s) = LF :: read_text s.
Proof.
  intros H. cbn. destruct s as [|d s]; [done|].
  destruct (N.eqb_spec d LF) as [->|?]; [by destruct H|done].
Qed.

(** Universal newlines do not change the lines of a text. *)
Lemma splitlines_read_text s cur :
  splitlines_from cur (read_text s) = splitlines_from cur s.
Proof.
  revert cur. induction s as [|c s Hc IH|s IH|s Hs IH|c s Hb Hc IH]
    using splitlines_cases; intros cur.
  - done.
  - rewrite read_text_char by (intros ->; done).
    rewrite !sl_char by done. apply IH.
  - change (read_text (CR :: LF :: s)) with (LF :: read_text s).
    rewrite sl_crlf, sl_break by done. by rewrite IH.
  - rewrite read_text_cr, sl_cr by done.
    rewrite sl_break by done. by rewrite IH.
  - rewrite read_text_char by done.
    assert (∀ t, splitlines_from cur (c :: t) = rev cur :: splitlines_from [] t)
      as E by (intros t; by apply sl_break).
    rewrite !E. by rewrite IH.
Qed.

(** A line without boundary characters, followed by a line feed. *)
Lemma splitlines_from_line cur l s :
  nolb l →
  splitlines_from cur (l ++ LF :: s) = (rev cur ++ l) :: splitlines_from [] s.
Proof.
  intros Hl. revert cur. induction Hl as [|c l Hc Hl IH]; intros cur.
  - simpl. by rewrite app_nil_r.
  - rewrite <- app_comm_cons, sl_char by done. rewrite IH. simpl.
    by rewrite <- app_assoc.
Qed.

Lemma splitlines_terminated (ls : list str) :
  Forall nolb ls → splitlines (flat_map (λ l, l ++ [LF]) ls) = ls.
Proof.
  unfold splitlines. induction 1 as [|l ls Hl Hls IH]; [done|].
  simpl. rewrite <- app_assoc. simpl.
  rewrite splitlines_from_line by done. by rewrite IH.
Qed.

(** The lines [splitlines] returns hold no boundary character. *)
Lemma splitlines_from_nolb s cur :
  nolb cur → Forall nolb (splitlines_from cur s).
Proof.
  assert (nolb []) as Hnil by constructor.
  assert (∀ l, nolb l → nolb (rev l)) as Hrev by (intros l; apply Forall_rev).
  revert cur. induction s as [|c s Hc IH|s IH|s Hs IH|c s Hb Hc IH]
    using splitlines_cases; intros cur Hcur.
  - rewrite sl_nil. destruct cur; [done|]. constructor; [auto|done].
  - rewrite sl_char by done. apply IH. by constructor.
  - rewrite sl_crlf. constructor; auto.
  - rewrite sl_cr by done. constructor; auto.
  - rewrite sl_break by done. constructor; auto.
Qed.

Lemma splitlines_nolb s : Forall nolb (splitlines s).
Proof. apply splitlines_from_nolb. constructor. Qed.

Lemma splitlines_from_nil_inv s cur :
  splitlines_from cur s = [] → s = [] ∧ cur = [].
Proof.
  revert cur. induction s as [|c s Hc IH|s IH|s Hs IH|c s Hb Hc IH]
    using splitlines_cases; intros cur.
  - rewrite sl_nil. by destruct cur.
  - rewrite sl_char by done. intros H. by apply IH in H as [_ ?].
  - by rewrite sl_crlf.
  - by rewrite sl_cr.
  - by rewrite sl_break.
Qed.

(** Text put after a complete last line starts new lines. *)
Lemma splitlines_from_app s t cur :
  s ≠ [] → (∀ c, last s = Some c → islinebreak c = true) →
  head t ≠ Some LF →
  splitlines_from cur (s ++ t) = splitlines_from cur s ++ splitlines_from [] t.
Proof.
  intros Hne Hlast Ht. revert cur Hne Hlast.
  induction s as [|c s Hc IH|s IH|s Hs IH|c s Hb Hc IH]
    using splitlines_cases; intros cur Hne Hlast; [done|..].
  - rewrite <- app_comm_cons, !sl_char by done.
    destruct s as [|d s].
    + specialize (Hlast c eq_refl). congruence.
    + apply IH; [done|]. intros e He. apply Hlast. by rewrite last_cons_cons.
  - rewrite <- !app_comm_cons, !sl_crlf. simpl. f_equal.
    destruct s as [|d s]; [done|].
    apply IH; [done|]. intros e He. apply Hlast.
    by rewrite !last_cons_cons.
  - rewrite <- app_comm_cons.
    destruct s as [|d s].
    + rewrite app_nil_l, !sl_cr by done. done.
    + rewrite !sl_cr by (simpl in *; done). simpl. f_equal.
      apply IH; [done|]. intros e He. apply Hlast.
      by rewrite last_cons_cons.
  - rewrite <- app_comm_cons, !sl_break by done. simpl. f_equal.
    destruct s as [|d s]; [done|].
    apply IH; [done|]. intros e He. apply Hlast. by rewrite last_cons_cons.
Qed.

(** A line feed put after a text adds at most one empty line. *)
Lemma splitlines_from_snoc_LF s cur :
  ∃ blank, (blank = [] ∨ blank = [[]])
    ∧ splitlines_from cur (s ++ [LF]) = splitlines_from cur s ++ blank.
Proof.
  revert cur. induction s as [|c s Hc IH|s IH|s Hs IH|c s Hb Hc IH]
    using splitlines_cases; intros cur.
  - simpl. destruct cur as [|a cur].
    + exists [[]]. auto.
    + exists []. auto.
  - rewrite <- app_comm_cons, !sl_char by done. apply IH.
  - rewrite <- !app_comm_cons, !sl_crlf.
    destruct (IH []) as (blank & Hb & ->). exists blank. done.
  - destruct s as [|d s].
    + exists []. split; [auto|]. done.
    + rewrite <- app_comm_cons, !sl_cr by (simpl in *; done).
      destruct (IH []) as (blank & Hb & ->). exists blank. done.
  - rewrite <- app_comm_cons, !sl_break by done.
    destruct (IH []) as (blank & Hb' & ->). exists blank. done.
Qed.

(** ** Rewriting the list file *)

Lemma join_terminated (ls : list str) :
  ls ≠ [] → join [LF] ls ++ [LF] = flat_map (λ l, l ++ [LF]) ls.
Proof.
  induction ls as [|l ls IH]; [done|]. intros _.
  destruct ls as [|l' ls]; [simpl; by rewrite app_nil_r|].
  change (join [LF] (l :: l' :: ls)) with (l ++ [LF] ++ join [LF] (l' :: ls)).
  rewrite <- !app_assoc, IH by done. simpl. by rewrite <- !app_assoc.
Qed.

Lemma last_flat_map_terminated (ls : list str) l :
  last ls = Some l →
  ∃ pre, flat_map (λ l, l ++ [LF]) ls = pre ++ l ++ [LF].
Proof.
  induction ls as [|k ls IH]; [done|].
  destruct ls as [|k' ls].
  - intros [= ->]. exists []. simpl. by rewrite app_nil_r.
  - rewrite last_cons_cons. intros H. destruct (IH H) as [pre Hpre].
    exists ((k ++ [LF]) ++ pre).
    change (flat_map (λ l, l ++ [LF]) (k :: k' :: ls))
      with ((k ++ [LF]) ++ flat_map (λ l, l ++ [LF]) (k' :: ls)).
    by rewrite Hpre, <- !app_assoc.
Qed.

Lemma trailing_newlines_line pre l :
  nolb l → l ≠ [] → trailing_newlines (pre ++ l ++ [LF]) = 1%nat.
Proof.
  intros Hl Hne. unfold trailing_newlines.
  destruct (exists_last Hne) as (l' & c & ->).
  rewrite !rev_app_distr. simpl. unfold nolb in Hl.
  apply Forall_app in Hl as [_ Hc%Forall_inv].
  destruct (N.eqb_spec c LF) as [->|?]; [|done].
  vm_compute in Hc. discriminate Hc.
Qed.

Lemma trailing_newlines_ge pre : (1 ≤ trailing_newlines (pre ++ [LF]))%nat.
Proof.
  unfold trailing_newlines. rewrite rev_app_distr. simpl. lia.
Qed.

(** C8 (amended). [cmd_remove] rewrites the list file with the lines whose
    trimmed content differs from the path, in their order, each ended by
    one line feed; when no line is kept the file is a single line feed.
    Blank lines and comment lines are kept whenever the path is neither
    empty nor starts with the comment mark.  The new text always ends with
    a line feed, and with exactly one when the last line kept is not
    empty. *)
Theorem remove_rewrites (path raw : str) :
  let lines := splitlines (read_text raw) in
  let kept := filter (λ ln, strip ln ≠ path) lines in
  cmd_remove path raw
    = (if decide (kept = []) then [LF] else flat_map (λ l, l ++ [LF]) kept)
  ∧ splitlines (read_text (cmd_remove path raw))
    = (if decide (kept = []) then [[]] else kept)
  ∧ (path ≠ [] → startswith path [HASH] = false →
     ∀ ln, ln ∈ lines →
       strip ln = [] ∨ startswith (strip ln) [HASH] = true → ln ∈ kept)
  ∧ (1 ≤ trailing_newlines (cmd_remove path raw))%nat
  ∧ (last kept ≠ Some [] → trailing_newlines (cmd_remove path raw) = 1%nat).
Proof.
  intros lines kept.
  assert (Forall nolb kept) as Hnolb.
  { apply Forall_forall. intros l [_ Hl]%list_elem_of_filter.
    revert l Hl. apply Forall_forall, splitlines_nolb. }
  assert (cmd_remove path raw
    = if decide (kept = []) then [LF] else flat_map (λ l, l ++ [LF]) kept)
    as Heq.
  { unfold cmd_remove. fold lines. fold kept.
    destruct (decide (kept = [])) as [->|Hne]; [done|].
    by apply join_terminated. }
  split; [done|]. split; [|split; [|split]].
  - unfold splitlines at 1. rewrite splitlines_read_text, Heq.
    destruct (decide (kept = [])); [done|].
    by apply splitlines_terminated.
  - intros Hp Hhash ln Hin Hln. apply list_elem_of_filter. split; [|done].
    intros E. destruct Hln as [Hln|Hln]; congruence.
  - unfold cmd_remove. apply trailing_newlines_ge.
  - intros Hlast. rewrite Heq. destruct (decide (kept = [])); [done|].
    destruct (last kept) as [l|] eqn:El; [|by apply last_None in El].
    destruct (last_flat_map_terminated kept l El) as [pre ->].
    apply trailing_newlines_line.
    + rewrite Forall_forall in Hnolb. apply Hnolb.
      apply last_Some in El as [? ->]. apply elem_of_app. right. left.
    + intros ->. done.
Qed.

(** C8, as stated, fails: a list that ends with a blank line keeps it, and
    the rewritten file then ends with two line feeds; and removing the
    empty path deletes blank lines. *)
Lemma remove_two_trailing_newlines :
  trailing_newlines (cmd_remove (py "b") (py "a" ++ [LF; LF])) = 2%nat
  ∧ cmd_remove [] (py "a" ++ [LF; LF] ++ py "c" ++ [LF])
    = py "a" ++ [LF] ++ py "c" ++ [LF].
Proof. split; vm_compute; reflexivity. Qed.

(** A text whose last line is empty ends with a boundary character. *)
Lemma splitlines_from_last_empty s cur :
  last (splitlines_from cur s) = Some [] →
  s ≠ [] ∧ ∀ c, last s = Some c → islinebreak c = true.
Proof.
  assert (∀ (x : str) (l : list str), last (x :: l) = Some [] →
    (l = [] ∧ x = []) ∨ (l ≠ [] ∧ last l = Some [])) as Hlast.
  { intros x [|y l]; [intros [= ->]; auto|]. rewrite last_cons_cons. auto. }
  assert (∀ c (t : str), t ≠ [] → last (c :: t) = last t) as Hcons.
  { intros c [|d t] Ht; [done|]. by rewrite last_cons_cons. }
  revert cur. induction s as [|c s Hc IH|s IH|s Hs IH|c s Hb Hc IH]
    using splitlines_cases; intros cur.
  - rewrite sl_nil. destruct cur as [|a cur]; [done|].
    intros [= H]. apply (f_equal (@length N)) in H.
    simpl in H. rewrite length_app in H. simpl in H. lia.
  - rewrite sl_char by done. intros [Hne H]%IH. split; [done|].
    intros e. rewrite Hcons by done. apply H.
  - rewrite sl_crlf. intros [[H _]|[Hne H]]%Hlast; (split; [done|]).
    + apply splitlines_from_nil_inv in H as [-> _]. by intros e [= <-].
    + apply IH in H as [Hs H]. intros e. rewrite !Hcons by done. apply H.
  - rewrite sl_cr by done. intros [[H _]|[Hne H]]%Hlast; (split; [done|]).
    + apply splitlines_from_nil_inv in H as [-> _]. by intros e [= <-].
    + apply IH in H as [Hs' H]. intros e. rewrite !Hcons by done. apply H.
  - rewrite sl_break by done.
    intros [[H _]|[Hne H]]%Hlast; (split; [done|]).
    + apply splitlines_from_nil_inv in H as [-> _]. by intros e [= <-].
    + apply IH in H as [Hs' H]. intros e. rewrite !Hcons by done. apply H.
Qed.

Lemma splitlines_entry path :
  nolb path → path ≠ [] → splitlines (path ++ [LF]) = [path].
Proof.
  intros Hp _. unfold splitlines. by rewrite splitlines_from_line.
Qed.

Lemma head_entry path :
  nolb path → path ≠ [] → head (path ++ [LF]) ≠ Some LF.
Proof.
  intros Hp Hne. destruct path as [|c path]; [done|].
  apply Forall_inv in Hp. simpl. intros [= ->]. vm_compute in Hp. done.
Qed.

Lemma splitlines_of_read_text s : splitlines (read_text s) = splitlines s.
Proof. apply splitlines_read_text. Qed.

Lemma encodable_line path : encodable (path ++ [LF]) = encodable path.
Proof.
  unfold encodable. rewrite forallb_app. cbn. by rewrite andb_true_r.
Qed.

(** The separating line feed [cmd_add] writes before the path. *)
Lemma cmd_add_sep path raw :
  existsb (λ line, str_eqb (strip line) path) (splitlines (read_text raw))
    = false →
  ∃ sep,
    cmd_add path raw = f_write (path ++ [LF]) (raw ++ sep)
    ∧ ((last (splitlines raw) = None ∧ sep = [])
       ∨ (last (splitlines raw) = Some [] ∧ sep = [])
       ∨ (∃ l, last (splitlines raw) = Some l ∧ l ≠ [] ∧ sep = [LF])).
Proof.
  intros H. unfold cmd_add. rewrite H. rewrite splitlines_of_read_text.
  destruct (last (splitlines raw)) as [l|]; [|exists []; auto].
  unfold str_eqb. destruct (decide (l = [])) as [->|Hl].
  - rewrite bool_decide_eq_true_2 by done. exists []. auto.
  - rewrite bool_decide_eq_false_2 by done. exists [LF].
    split; [done|]. right. right. by exists l.
Qed.

(** What [cmd_add] writes when the path is not in the list yet and can be
    encoded. *)
Lemma cmd_add_cases path raw :
  existsb (λ line, str_eqb (strip line) path) (splitlines (read_text raw))
    = false →
  encodable path = true →
  (last (splitlines raw) = None
   ∧ cmd_add path raw = (raw ++ path ++ [LF], Ok tt))
  ∨ (last (splitlines raw) = Some []
     ∧ cmd_add path raw = (raw ++ path ++ [LF], Ok tt))
  ∨ (∃ l, last (splitlines raw) = Some l ∧ l ≠ []
          ∧ cmd_add path raw = (raw ++ [LF] ++ path ++ [LF], Ok tt)).
Proof.
  intros H Henc. destruct (cmd_add_sep path raw H) as (sep & -> & Hsep).
  unfold f_write. rewrite encodable_line, Henc.
  destruct Hsep as [[El ->]|[[El ->]|(l & El & Hl & ->)]].
  - left. by rewrite app_nil_r.
  - right. left. by rewrite app_nil_r.
  - right. right. exists l. by rewrite <- app_assoc.
Qed.

(** The lines of a list file after the separating line feed. *)
Lemma cmd_add_sep_lines (raw sep : str) :
  (last (splitlines raw) = None ∧ sep = [])
  ∨ (last (splitlines raw) = Some [] ∧ sep = [])
  ∨ (∃ l, last (splitlines raw) = Some l ∧ l ≠ [] ∧ sep = [LF]) →
  ∃ blank, (blank = [] ∨ blank = [[]])
    ∧ splitlines (read_text (raw ++ sep))
      = splitlines (read_text raw) ++ blank.
Proof.
  rewrite !splitlines_of_read_text.
  intros [[_ ->]|[[_ ->]|(l & _ & _ & ->)]].
  - exists []. rewrite !app_nil_r. auto.
  - exists []. rewrite !app_nil_r. auto.
  - destruct (splitlines_from_snoc_LF raw []) as (blank & Hb & Hsnoc).
    exists blank. split; [done|]. exact Hsnoc.
Qed.

(** The lines of the list file after an entry was appended. *)
Lemma cmd_add_lines path raw :
  existsb (λ line, str_eqb (strip line) path) (splitlines (read_text raw))
    = false →
  encodable path = true →
  nolb path → path ≠ [] →
  ∃ blank, (blank = [] ∨ blank = [[]])
    ∧ (last (splitlines (read_text raw)) = Some [] → blank = [])
    ∧ splitlines (read_text (cmd_add path raw).1)
      = splitlines (read_text raw) ++ blank ++ [path].
Proof.
  intros Habs Henc Hp Hne. rewrite !splitlines_of_read_text.
  destruct (cmd_add_cases path raw Habs Henc)
    as [[El ->]|[[El ->]|(l & El & Hl & ->)]]; cbn [fst].
  - apply last_None in El. exists []. split; [auto|]. split; [done|].
    rewrite El. apply splitlines_from_nil_inv in El as [-> _]. cbn [app].
    by rewrite splitlines_entry.
  - exists []. split; [auto|]. split; [done|].
    apply splitlines_from_last_empty in El as [Hraw Hlast].
    unfold splitlines at 1.
    rewrite splitlines_from_app by auto using head_entry.
    fold (splitlines (path ++ [LF])) (splitlines raw).
    by rewrite splitlines_entry.
  - destruct (splitlines_from_snoc_LF raw []) as (blank & Hb & Hsnoc).
    exists blank. split; [done|]. split; [rewrite El; by intros [= ->]|].
    replace (raw ++ [LF] ++ path ++ [LF])
      with ((raw ++ [LF]) ++ (path ++ [LF])) by by rewrite <- !app_assoc.
    unfold splitlines at 1. rewrite splitlines_from_app.
    + rewrite Hsnoc. fold (splitlines (path ++ [LF])) (splitlines raw).
      rewrite splitlines_entry by done. by rewrite <- app_assoc.
    + by destruct raw.
    + intros c. rewrite last_snoc. by intros [= <-].
    + by apply head_entry.
Qed.

Lemma cmd_add_present path raw :
  existsb (λ line, str_eqb (strip line) path) (splitlines (read_text raw))
    = true →
  cmd_add path raw = (raw, Ok tt).
Proof. intros H. unfold cmd_add. by rewrite H. Qed.

Lemma existsb_strip_false path (ls : list str) :
  existsb (λ line, str_eqb (strip line) path) ls = false →
  filter (λ ln, strip ln = path) ls = [].
Proof.
  induction ls as [|l ls IH]; [done|]. simpl.
  intros [H1 H2]%orb_false_iff. unfold str_eqb in H1.
  apply bool_decide_eq_false in H1.
  rewrite filter_cons_False by done. auto.
Qed.

(** C7 (amended). [cmd_add] leaves the list file alone when a trimmed line
    equals the path.  Otherwise it writes one separating line feed at most
    and then the path and a line feed, if the path can be encoded; if it
    cannot, the command raises [UnicodeEncodeError] and the file is left
    with the separating line feed only.  For a path that can be encoded,
    is not empty and holds no line boundary, the lines of the new file are
    the old ones, at most one empty line (none when the old last line was
    empty), and the path as last line, and the file ends with exactly one
    line feed.  For such a path that moreover has no leading or trailing
    whitespace, a second [add] changes nothing, and a list that lacked the
    path holds it exactly once afterwards. *)
Theorem add_appends_once (path raw : str) :
  let lines := splitlines (read_text raw) in
  let present := existsb (λ line, str_eqb (strip line) path) lines in
  (present = true → cmd_add path raw = (raw, Ok tt))
  ∧ (present = false →
     ∃ sep, (sep = [] ∨ sep = [LF])
       ∧ cmd_add path raw
         = if encodable path then (raw ++ sep ++ path ++ [LF], Ok tt)
           else (raw ++ sep, Raise UnicodeEncodeError))
  ∧ (present = false → encodable path = true → nolb path → path ≠ [] →
     (∃ blank, (blank = [] ∨ blank = [[]])
        ∧ (last lines = Some [] → blank = [])
        ∧ splitlines (read_text (cmd_add path raw).1)
          = lines ++ blank ++ [path])
     ∧ trailing_newlines (cmd_add path raw).1 = 1%nat)
  ∧ (encodable path = true → nolb path → path ≠ [] → strip path = path →
     cmd_add path (cmd_add path raw).1 = ((cmd_add path raw).1, Ok tt)
     ∧ (present = false →
        occurrences path (cmd_add path (cmd_add path raw).1).1 = 1%nat)).
Proof.
  intros lines present.
  assert (present = false → encodable path = true → nolb path → path ≠ [] →
    strip path = path →
    cmd_add path (cmd_add path raw).1 = ((cmd_add path raw).1, Ok tt))
    as Hidem.
  { intros Habs Henc Hp Hne Hstrip.
    destruct (cmd_add_lines path raw Habs Henc Hp Hne)
      as (blank & _ & _ & Hl).
    apply cmd_add_present. rewrite Hl, !existsb_app. simpl.
    unfold str_eqb at 3. rewrite bool_decide_eq_true_2 by done.
    by rewrite !orb_true_r. }
  split; [apply cmd_add_present|]. split; [|split].
  - intros Habs. destruct (cmd_add_sep path raw Habs) as (sep & -> & Hsep).
    exists sep. split.
    + destruct Hsep as [[_ ->]|[[_ ->]|(l & _ & _ & ->)]]; auto.
    + unfold f_write. rewrite encodable_line.
      destruct (encodable path); [|done]. by rewrite <- app_assoc.
  - intros Habs Henc Hp Hne. split; [by apply cmd_add_lines|].
    destruct (cmd_add_cases path raw Habs Henc)
      as [[_ ->]|[[_ ->]|(l & _ & _ & ->)]]; cbn [fst].
    + by apply trailing_newlines_line.
    + by apply trailing_newlines_line.
    + rewrite app_assoc. by apply trailing_newlines_line.
  - intros Henc Hp Hne Hstrip. destruct present eqn:E.
    + split; [|done]. fold lines in E. unfold present in E.
      rewrite !(cmd_add_present path raw E). cbn [fst].
      by apply cmd_add_present.
    + split; [by apply Hidem|]. intros _. rewrite Hidem by done. cbn [fst].
      destruct (cmd_add_lines path raw E Henc Hp Hne)
        as (blank & Hb & _ & Hl).
      unfold occurrences. rewrite Hl, !filter_app.
      fold lines. unfold present in E.
      rewrite (existsb_strip_false path lines E).
      rewrite (filter_cons_True _ path) by done.
      destruct Hb as [->| ->]; [done|].
      rewrite filter_cons_False; [done|].
      intros Hs. apply Hne. rewrite <- Hs. reflexivity.
Qed.

(** C7, as stated, fails: a path with a leading blank equals no trimmed
    line, so each [add] appends it again; a list that already holds the path
    twice keeps both; an empty path leaves two line feeds at the end; and a
    path holding a lone surrogate is not appended at all: the command
    raises after the separating line feed was written. *)
Lemma add_twice_two_occurrences :
  splitlines (read_text (cmd_add (py " a") (cmd_add (py " a") []).1).1)
    = [py " a"; []; py " a"]
  ∧ occurrences (py "a")
      (cmd_add (py "a")
         (cmd_add (py "a") (py "a" ++ [LF] ++ py "a" ++ [LF])).1).1
    = 2%nat
  ∧ trailing_newlines (cmd_add [] (py "a")).1 = 2%nat
  ∧ cmd_add [0xDCFF] (py "a") = (py "a" ++ [LF], Raise UnicodeEncodeError).
Proof. repeat split; vm_compute; reflexivity. Qed.

Lemma add_appends_once_witness :
  cmd_add (py "x") (cmd_add (py "x") (py "a" ++ [LF])).1
    = ((cmd_add (py "x") (py "a" ++ [LF])).1, Ok tt)
  ∧ occurrences (py "x")
      (cmd_add (py "x") (cmd_add (py "x") (py "a" ++ [LF])).1).1
    = 1%nat.
Proof.
  destruct (add_appends_once (py "x") (py "a" ++ [LF])) as (_ & _ & _ & H).
  destruct H as [H1 H2].
  - reflexivity.
  - repeat constructor.
  - discriminate.
  - reflexivity.
  - split; [exact H1|]. apply H2. reflexivity.
Defined.

(** ** The hasher *)

Lemma read_app n rest : (read n rest).1 ++ (read n rest).2 = rest.
Proof.
  revert n. induction rest as [|b rest IH]; intros n; simpl; [done|].
  destruct (n =? 0); [done|]. specialize (IH (N.pred n)).
  destruct (read (N.pred n) rest). simpl in *. by rewrite IH.
Qed.

Lemma read_nil n rest l : n ≠ 0 → read n rest = ([], l) → rest = [].
Proof.
  intros Hn. destruct rest as [|b rest]; [done|]. simpl.
  destruct (N.eqb_spec n 0); [done|].
  by destruct (read (N.pred n) rest).
Qed.

Lemma update_app o a b :
  SHA256.update o (a ++ b) = SHA256.update (SHA256.update o a) b.
Proof. apply fold_left_app. Qed.

(** Without a fault the loop ends, whatever the chunk size, with the
    accumulator that was fed the whole content. *)
Lemma hash_chunks_no_fault n k h rest :
  n ≠ 0 → hash_chunks n NoFault k h rest = Ok (SHA256.update h rest).
Proof.
  intros Hn. funelim (hash_chunks n NoFault k h rest).
  - discriminate.
  - by rewrite (read_nil _ _ _ Hn e).
  - rewrite H by done. pose proof (read_app n rest) as Happ.
    rewrite e in Happ. simpl in Happ. by rewrite <- Happ, <- update_app.
Qed.


(** The loop raises nothing but the [OSError] of a failing [read]. *)
Lemma hash_chunks_exn n flt k h rest e :
  hash_chunks n flt k h rest = Raise e → e = OSError.
Proof.
  funelim (hash_chunks n flt k h rest); intros E;
    first [by injection E | discriminate E | eauto].
Qed.

Lemma sha256_of_file_exn f e : sha256_of_file f = Raise e → e = OSError.
Proof.
  unfold sha256_of_file.
  destruct (io f);
    try (destruct (hash_chunks _ _ _ _ _) as [h|e'] eqn:E;
         [done|intros [= <-]; by eapply hash_chunks_exn]).
  by intros [= <-].
Qed.

(** ** The accumulator against the one-shot hash *)

Lemma update_cons o b d :
  SHA256.update o (b :: d) = SHA256.update (SHA256.feed o b) d.
Proof. done. Qed.

Lemma feed_short o b :
  (length (SHA256.pending o) + 1 < 64)%nat →
  SHA256.feed o b
  = SHA256.Obj (SHA256.hv o) (SHA256.pending o ++ [b]) (SHA256.total o + 1).
Proof.
  intros H. unfold SHA256.feed.
  destruct (Nat.eqb_spec (length (SHA256.pending o ++ [b])) 64) as [E|_];
    [|done].
  rewrite length_app in E. simpl in E. lia.
Qed.

Lemma feed_full o b :
  (length (SHA256.pending o) + 1 = 64)%nat →
  SHA256.feed o b
  = SHA256.Obj (SHA256.compress (SHA256.hv o) (SHA256.pending o ++ [b])) []
      (SHA256.total o + 1).
Proof.
  intros H. unfold SHA256.feed.
  destruct (Nat.eqb_spec (length (SHA256.pending o ++ [b])) 64) as [_|E];
    [done|].
  rewrite length_app in E. simpl in E. lia.
Qed.

Lemma update_short d o :
  (length (SHA256.pending o) + length d < 64)%nat →
  SHA256.update o d
  = SHA256.Obj (SHA256.hv o) (SHA256.pending o ++ d)
      (SHA256.total o + N.of_nat (length d)).
Proof.
  revert o. induction d as [|b d IH]; intros o Hlen.
  - destruct o. simpl. by rewrite app_nil_r, N.add_0_r.
  - simpl in Hlen. rewrite update_cons, feed_short by lia.
    rewrite IH; cbn [SHA256.pending SHA256.hv SHA256.total].
    + rewrite <- app_assoc. f_equal. rewrite length_cons, Nat2N.inj_succ. lia.
    + rewrite length_app. simpl. lia.
Qed.

Lemma update_fill d o :
  (length (SHA256.pending o) + length d = 64)%nat → d ≠ [] →
  SHA256.update o d
  = SHA256.Obj (SHA256.compress (SHA256.hv o) (SHA256.pending o ++ d)) []
      (SHA256.total o + N.of_nat (length d)).
Proof.
  intros Hlen Hne. destruct (exists_last Hne) as (d' & b & ->).
  rewrite length_app in Hlen. simpl in Hlen.
  rewrite update_app, (update_short d' o) by lia.
  change (SHA256.update ?o [b]) with (SHA256.feed o b).
  rewrite feed_full; cbn [SHA256.pending SHA256.hv SHA256.total].
  - rewrite <- app_assoc, length_app. simpl. f_equal. lia.
  - rewrite length_app. lia.
Qed.

Lemma update_blocks m : ∀ d o,
  (length (SHA256.pending o) < 64)%nat →
  (length (SHA256.pending o) + length d = 64 * m)%nat →
  SHA256.update o d
  = SHA256.Obj
      (fold_left SHA256.compress (SHA256.blocks (SHA256.pending o ++ d))
         (SHA256.hv o))
      [] (SHA256.total o + N.of_nat (length d)).
Proof.
  induction m as [|m IH]; intros d [v p n] Hp Hlen;
    cbn [SHA256.pending SHA256.hv SHA256.total] in *.
  - destruct p, d; try (simpl in Hlen; lia).
    simpl. by rewrite N.add_0_r.
  - set (k := (64 - length p)%nat).
    assert (d = take k d ++ drop k d) as Hd by by rewrite take_drop.
    assert (length (take k d) = k) as Hk by (rewrite length_take; lia).
    rewrite Hd at 1. rewrite update_app.
    rewrite (update_fill (take k d) (SHA256.Obj v p n));
      cbn [SHA256.pending SHA256.hv SHA256.total];
      [|lia|intros E; rewrite E in Hk; simpl in Hk; lia].
    rewrite (IH (drop k d)); cbn [SHA256.pending SHA256.hv SHA256.total];
      [|simpl; lia|rewrite length_drop; simpl; lia].
    assert (SHA256.blocks (p ++ d)
      = (p ++ take k d) :: SHA256.blocks (drop k d)) as ->.
    { unfold SHA256.blocks. rewrite length_app, Hlen, length_drop.
      replace (64 * S m / 64)%nat with (S m)
        by (symmetry; rewrite Nat.mul_comm; by apply Nat.div_mul).
      replace ((length d - k) / 64)%nat with m.
      2:{ replace (length d - k)%nat with (m * 64)%nat by lia.
          symmetry. by apply Nat.div_mul. }
      cbn [SHA256.blocks_upto]. f_equal.
      - rewrite take_app_ge by lia. f_equal.
      - rewrite drop_app_ge by lia. f_equal. }
    cbn [fold_left app]. f_equal.
    rewrite <- N.add_assoc, <- Nat2N.inj_add, <- length_app, <- Hd. done.
Qed.

Lemma update_total d o :
  SHA256.total (SHA256.update o d) = SHA256.total o + N.of_nat (length d).
Proof.
  revert o. induction d as [|b d IH]; intros o; simpl; [lia|].
  fold (SHA256.update (SHA256.feed o b) d). rewrite IH.
  unfold SHA256.feed. destruct (_ =? _)%nat; simpl; lia.
Qed.

Lemma padding_length len :
  ∃ m, (N.to_nat (len mod 64) + length (SHA256.padding len) = 64 * m)%nat.
Proof.
  unfold SHA256.padding. rewrite !length_app, repeat_length. simpl.
  pose proof (N.mod_lt len 64 ltac:(done)) as Ha.
  set (a := len mod 64) in *.
  destruct (N.le_gt_cases a 55) as [H|H].
  - exists 1%nat.
    replace ((119 - a) mod 64) with (55 - a); [lia|].
    symmetry. replace (119 - a) with (55 - a + 1 * 64) by lia.
    rewrite N.Div0.mod_add. apply N.mod_small. lia.
  - exists 2%nat. rewrite N.mod_small by lia. lia.
Qed.

(** The digest of the accumulator fed a message in any number of calls is
    the standard hash of the message. *)
Lemma hexdigest_update_new msg :
  SHA256.hexdigest (SHA256.update SHA256.new msg)
  = SHA256.hex (SHA256.hash msg).
Proof.
  unfold SHA256.hexdigest, SHA256.digest, SHA256.hash. do 2 f_equal.
  rewrite update_total, <- update_app. simpl SHA256.total. rewrite N.add_0_l.
  destruct (padding_length (N.of_nat (length msg))) as [m Hm].
  assert (∃ m', (length (msg ++ SHA256.padding (N.of_nat (length msg)))
    = 64 * m')%nat) as [m' Hm'].
  { rewrite length_app.
    pose proof (N.div_mod (N.of_nat (length msg)) 64 ltac:(done)) as Hdiv.
    exists (N.to_nat (N.of_nat (length msg) / 64) + m)%nat. lia. }
  by rewrite (update_blocks m') by (simpl; lia).
Qed.

Lemma CHUNK_pos : CHUNK ≠ 0.
Proof. done. Qed.

Lemma sha256_of_file_no_fault data :
  sha256_of_file (RegularFile data NoFault) = Ok (sha256_whole data).
Proof.
  unfold sha256_of_file, sha256_whole. simpl.
  rewrite hash_chunks_no_fault by apply CHUNK_pos.
  by rewrite hexdigest_update_new.
Qed.

(** C5. With the chunk size of the script, [sha256_of_file] returns the
    standard SHA-256 digest of the unchanged bytes of the file; and for any
    positive chunk size, reading the file in chunks and feeding each chunk
    to the accumulator ends with the accumulator that was fed the whole
    content at once, whose digest is that standard digest. *)
Theorem chunked_digest_is_whole_digest (data : bytes) :
  sha256_of_file (RegularFile data NoFault) = Ok (sha256_whole data)
  ∧ ∀ n, n ≠ 0 →
      hash_chunks n NoFault 0 SHA256.new data
      = Ok (SHA256.update SHA256.new data)
      ∧ SHA256.hexdigest (SHA256.update SHA256.new data) = sha256_whole data.
Proof.
  split; [apply sha256_of_file_no_fault|].
  intros n Hn. split; [by apply hash_chunks_no_fault|].
  apply hexdigest_update_new.
Qed.

Lemma chunked_digest_is_whole_digest_witness :
  hash_chunks 2 NoFault 0 SHA256.new (py "hello")
  = Ok (SHA256.update SHA256.new (py "hello")).
Proof.
  apply (proj2 (chunked_digest_is_whole_digest (py "hello")) 2). discriminate.
Defined.

(** Test vectors of the standard for the one-shot hash: the empty message,
    "abc", and a message of two blocks. *)
Example sha256_test_vectors :
  sha256_whole []
  = py "e3b0c44298fc1c149afbf4c8996fb92427ae41e4649b934ca495991b7852b855"
  ∧ sha256_whole (py "abc")
    = py "ba7816bf8f01cfea414140de5dae2223b00361a396177a9cb410ff61f20015ad"
  ∧ sha256_whole
      (py "abcdbcdecdefdefgefghfghighijhijkijkljklmklmnlmnomnopnopq")
    = py "248d6a61d20638b8e5c026930c3e6039a33ce45964ff2167f6ecedd419db06c1".
Proof. repeat split; vm_compute; reflexivity. Qed.

(** C9 (amended). The digest of a file holding the five bytes of "hello"
    has 64 characters and ends in 9824; it is the token the baseline
    written by [cmd_init] pairs with such a file. *)
Theorem hello_digest :
  sha256_of_file (RegularFile (py "hello") NoFault)
  = Ok (py "2cf24dba5fb0a30e26e83b2ac5b9e29e1b161e5c1fa7425e73043362938b9824")
  ∧ ∀ (home_join : str → str) (fs : str → node) d0,
      fs (py "A.txt") = IsFile (RegularFile (py "hello") NoFault) →
      ∃ states,
        cmd_init home_join fs (py "A.txt" ++ [LF]) d0 = Ok states
        ∧ (last states ≫= get BASELINE)
          = Some (py "2cf24dba5fb0a30e26e83b2ac5b9e29e1b161e5c1fa7425e73043362938b9824  A.txt" ++ [LF]).
Proof.
  assert (sha256_of_file (RegularFile (py "hello") NoFault)
    = Ok (py "2cf24dba5fb0a30e26e83b2ac5b9e29e1b161e5c1fa7425e73043362938b9824"))
    as Hd by (rewrite sha256_of_file_no_fault; vm_compute; reflexivity).
  split; [exact Hd|].
  intros home_join fs d0 Hfs.
  unfold cmd_init.
  assert (hash_files_from_list home_join fs (py "A.txt" ++ [LF])
    = Ok (py "2cf24dba5fb0a30e26e83b2ac5b9e29e1b161e5c1fa7425e73043362938b9824  A.txt" ++ [LF]))
    as ->.
  { unfold hash_files_from_list.
    assert (iter_list_paths home_join (py "A.txt" ++ [LF]) = [py "A.txt"])
      as -> by (vm_compute; reflexivity).
    cbn [hash_lines]. unfold hash_line. rewrite Hfs, Hd. reflexivity. }
  eexists. split; reflexivity.
Qed.

(** C9, as stated, fails: the 63 characters quoted for the digest of
    "hello" are not what [sha256_of_file] returns. *)
Lemma hello_digest_not_63 :
  sha256_of_file (RegularFile (py "hello") NoFault)
  ≠ Ok (py "2cf24dba5fb0a30e26e83b2ac5b9e29e1b161e5c1fa7425e73043362938b982").
Proof.
  rewrite sha256_of_file_no_fault. vm_compute. discriminate.
Qed.

Lemma hexdigit_hex d : d < 16 → is_hex (SHA256.hexdigit d) = true.
Proof.
  intros Hd. unfold is_hex, SHA256.hexdigit.
  destruct (N.ltb_spec d 10);
    rewrite orb_true_iff, !andb_true_iff, !N.leb_le; lia.
Qed.

Lemma digest_length o : length (SHA256.digest o) = 32%nat.
Proof. reflexivity. Qed.

Lemma digest_bytes o : Forall (λ b, b < 256) (SHA256.digest o).
Proof.
  unfold SHA256.digest, SHA256.word_bytes.
  apply Forall_flat_map, Forall_forall.
  intros w _. unfold SHA256.be_bytes. apply Forall_map, Forall_forall.
  intros i _. by apply N.mod_lt.
Qed.

(** [hexdigest] returns 64 lowercase hexadecimal characters. *)
Lemma hexdigest_is_digest o : is_digest (SHA256.hexdigest o).
Proof.
  unfold is_digest, SHA256.hexdigest, SHA256.hex.
  pose proof (digest_length o) as Hlen. pose proof (digest_bytes o) as Hb.
  revert Hlen Hb. generalize (SHA256.digest o). intros l Hlen Hb. split.
  - change 64%nat with (2 * 32)%nat.
    rewrite <- Hlen. clear. induction l as [|b l IH]; simpl; lia.
  - clear Hlen. induction Hb as [|b l Hb _ IH]; [done|].
    simpl. rewrite IH, !hexdigit_hex; [done|..].
    + by apply N.mod_lt.
    + apply N.Div0.div_lt_upper_bound. lia.
Qed.

Lemma sha256_of_file_digest f d : sha256_of_file f = Ok d → is_digest d.
Proof.
  unfold sha256_of_file.
  destruct (io f);
    try destruct (hash_chunks _ _ _ _ _) as [h|e]; intros [= <-];
    apply hexdigest_is_digest.
Qed.


Lemma outcome_of_raise fs p e :
  outcome_of fs p = Raise e ↔ e = OSError ∧ fs p = StatRaises.
Proof.
  unfold outcome_of. destruct (fs p) as [|f|].
  - split; [done|]. by intros [_ ?].
  - split; [|by intros [_ ?]].
    destruct (sha256_of_file f) as [d|e'] eqn:E; [done|].
    apply sha256_of_file_exn in E as ->. done.
  - split; [by intros [= <-]|]. by intros [-> _].
Qed.

Lemma outcome_of_valid fs p o : outcome_of fs p = Ok o → valid_outcome o.
Proof.
  unfold outcome_of. destruct (fs p) as [|f|]; [by intros [= <-]| |done].
  destruct (sha256_of_file f) as [d|e] eqn:E.
  - intros [= <-]. simpl. by eapply sha256_of_file_digest.
  - apply sha256_of_file_exn in E as ->. by intros [= <-].
Qed.

Lemma hash_line_store_line fs p :
  hash_line fs p = (λ o, store_line (p, o)) <$> outcome_of fs p.
Proof.
  unfold hash_line, store_line, outcome_of.
  destruct (fs p) as [|f|]; [done| |done].
  destruct (sha256_of_file f) as [d|[]]; done.
Qed.

(** The loop of [hash_files_from_list] either gathers the line of every
    listed path, or is left at a path whose lookup fails. *)
Lemma hash_lines_spec fs ps lines :
  match hash_lines fs ps lines with
  | Ok out => ∃ es, records fs ps es ∧ out = lines ++ (store_line <$> es)
  | Raise e => e = OSError ∧ Exists (λ p, fs p = StatRaises) ps
  end.
Proof.
  revert lines. induction ps as [|p ps IH]; intros lines; cbn [hash_lines].
  - exists []. split; [constructor|]. cbn. by rewrite app_nil_r.
  - rewrite hash_line_store_line.
    destruct (outcome_of fs p) as [o|e] eqn:Eo; cbn.
    + specialize (IH (lines ++ [store_line (p, o)])).
      destruct (hash_lines fs ps _) as [out|e].
      * destruct IH as (es & Hes & ->). exists ((p, o) :: es).
        split; [by constructor|]. cbn. by rewrite <- app_assoc.
      * destruct IH as [-> Hex]. split; [done|by right].
    + apply outcome_of_raise in Eo as [-> Hp]. split; [done|by left].
Qed.

Lemma hash_files_from_list_store home_join fs raw :
  match hash_files_from_list home_join fs raw with
  | Ok out =>
      ∃ es, records fs (iter_list_paths home_join raw) es
            ∧ out = write_store es
  | Raise e =>
      e = OSError
      ∧ Exists (λ p, fs p = StatRaises) (iter_list_paths home_join raw)
  end.
Proof.
  unfold hash_files_from_list.
  pose proof (hash_lines_spec fs (iter_list_paths home_join raw) []) as H.
  destruct (hash_lines fs _ []) as [lines|e]; [|done].
  destruct H as (es & Hes & ->). exists es. split; [done|]. cbn [app].
  unfold write_store. destruct es as [|e es]; [done|].
  rewrite join_terminated by done.
  generalize (e :: es). clear. intros l.
  induction l as [|e l IH]; [done|]. cbn. by rewrite IH.
Qed.



Lemma write_store_last entries :
  last (write_store entries) = Some LF ↔ entries ≠ [].
Proof.
  destruct entries as [|e es]; [done|]. split; [done|]. intros _.
  destruct (last (e :: es)) as [e'|] eqn:El; [|by apply last_None in El].
  apply last_Some in El as [es' ->]. unfold write_store.
  rewrite flat_map_app. simpl. rewrite app_nil_r, !app_assoc.
  apply last_snoc.
Qed.

(** C6. The text [hash_files_from_list] writes is, for each listed path in
    the order of the list file, the token of its outcome (64 hexadecimal
    characters, MISSING or ERROR), two spaces, the path and a line feed; it
    ends with a line feed exactly when at least one path is listed.  No
    text is written only when the lookup of a listed path fails. *)
Theorem store_text_format (home_join : str → str) (fs : str → node)
    (raw : str) :
  let paths := iter_list_paths home_join raw in
  match hash_files_from_list home_join fs raw with
  | Ok out =>
      ∃ entries,
        records fs paths entries
        ∧ out
          = flat_map (λ e, token e.2 ++ [SPACE; SPACE] ++ e.1 ++ [LF]) entries
        ∧ Forall (λ e, match e.2 with
                       | Digest hex => is_digest hex
                       | Missing | Error => True
                       end) entries
        ∧ (last out = Some LF ↔ entries ≠ [])
  | Raise e =>
      e = OSError ∧ Exists (λ p, is_file (fs p) = Raise OSError) paths
  end.
Proof.
  intros paths. pose proof (hash_files_from_list_store home_join fs raw) as H.
  destruct (hash_files_from_list home_join fs raw) as [out|e].
  - destruct H as (es & Hes & ->). exists es. split; [done|].
    split; [|split].
    + unfold write_store, store_line. apply flat_map_ext.
      intros e. by rewrite <- !app_assoc.
    + unfold records in Hes. clear -Hes.
      induction Hes as [|p e ps es [_ Hp] _ IH]; constructor; [|done].
      by apply outcome_of_valid in Hp.
    + apply write_store_last.
  - destruct H as [-> Hex]. split; [done|].
    eapply Exists_impl; [exact Hex|]. intros p Hp. cbn in Hp.
    by rewrite Hp.
Qed.

Lemma sha256_of_file_raises f :
  sha256_of_file f = Raise OSError → io f ≠ NoFault.
Proof.
  destruct f as [data flt]. cbn [io]. intros H E. subst flt.
  by rewrite sha256_of_file_no_fault in H.
Qed.





(** ** The codec *)

Lemma lstrip_with_head f s :
  (∀ c, head s = Some c → f c = false) → lstrip_with f s = s.
Proof. destruct s as [|c s]; [done|]. intros H. simpl. by rewrite H. Qed.

Lemma head_rev (s : str) : head (rev s) = last s.
Proof.
  induction s as [|c s _] using rev_ind; [done|].
  by rewrite rev_app_distr, last_snoc.
Qed.

Lemma rstrip_with_last f s :
  (∀ c, last s = Some c → f c = false) → rstrip_with f s = s.
Proof.
  intros H. unfold rstrip_with. rewrite lstrip_with_head.
  - apply rev_involutive.
  - intros c Hc. apply H. by rewrite <- head_rev.
Qed.

Lemma span_field_token tok rest :
  no_whitespace tok → (∀ c, head rest = Some c → isspace c = true) →
  span_field (tok ++ rest) = (tok, rest).
Proof.
  intros Htok Hrest. induction Htok as [|c tok Hc _ IH]; simpl.
  - destruct rest as [|d rest]; [done|]. simpl. by rewrite Hrest.
  - by rewrite Hc, IH.
Qed.

Lemma split_maxsplit1_field s :
  s ≠ [] → lstrip_with isspace s = s →
  split_maxsplit1 s
  = match lstrip_with isspace (span_field s).2 with
    | [] => [(span_field s).1]
    | rem => [(span_field s).1; rem]
    end.
Proof.
  intros Hs E. unfold split_maxsplit1. rewrite E.
  destruct s as [|c s]; [done|]. by destruct (span_field (c :: s)).
Qed.

Lemma split_store_line tok path :
  tok ≠ [] → no_whitespace tok →
  path ≠ [] → (∀ c, head path = Some c → isspace c = false) →
  split_maxsplit1 (tok ++ [SPACE; SPACE] ++ path) = [tok; path].
Proof.
  intros Htok Hns Hpath Hhead. rewrite split_maxsplit1_field.
  - rewrite span_field_token; [|done|by intros c [= <-]]. cbn [fst snd].
    change (lstrip_with isspace ([SPACE; SPACE] ++ path))
      with (lstrip_with isspace path).
    rewrite lstrip_with_head by done. by destruct path.
  - by destruct tok.
  - apply lstrip_with_head.
    destruct tok as [|t tok]; [done|]. intros c [= <-].
    by apply Forall_inv in Hns.
Qed.

Lemma is_hex_not_space c : is_hex c = true → isspace c = false.
Proof.
  unfold is_hex, isspace.
  rewrite orb_true_iff, !andb_true_iff, !N.leb_le.
  intros H. rewrite !orb_false_iff, !andb_false_iff, !N.leb_gt, !N.eqb_neq.
  lia.
Qed.

Lemma token_no_whitespace o :
  valid_outcome o → token o ≠ [] ∧ no_whitespace (token o).
Proof.
  destruct o as [hex| |]; simpl.
  - intros [Hlen Hhex]. split; [by intros ->|].
    apply Forall_forall. intros c Hc. apply is_hex_not_space.
    rewrite forallb_forall in Hhex. apply Hhex. by apply list_elem_of_In.
  - intros _. split; [done|]. repeat constructor.
  - intros _. split; [done|]. repeat constructor.
Qed.

Lemma no_whitespace_nolb p : no_whitespace p → nolb p.
Proof.
  unfold no_whitespace, nolb. intros H. eapply Forall_impl; [exact H|].
  intros c Hc. simpl in *.
  destruct (islinebreak c) eqn:E; [|done].
  apply islinebreak_isspace in E. congruence.
Qed.

(** One well-formed store line read back. *)
Lemma parse_line_store_line mapping path o :
  valid_outcome o → path ≠ [] → nolb path →
  (∀ c, head path = Some c → isspace c = false ∧ c ≠ STAR) →
  parse_line mapping (store_line (path, o)) = <[path := token o]> mapping.
Proof.
  intros [Htok Hns]%token_no_whitespace Hpath Hnolb Hhead.
  unfold parse_line, store_line. cbn [fst snd].
  rewrite rstrip_with_last.
  - rewrite split_store_line; [|done|done|done|by intros c [? _]%Hhead].
    destruct (token o) as [|t tok] eqn:Et; [done|]. cbn [app].
    rewrite lstrip_with_head; [done|].
    intros c Hc. destruct (Hhead c Hc) as [Hsp Hstar].
    unfold in_chars. simpl. rewrite orb_false_r.
    apply orb_false_iff. split; apply N.eqb_neq; [|done].
    intros ->. done.
  - intros c. rewrite !app_assoc.
    destruct (exists_last Hpath) as (p' & d & ->).
    rewrite app_assoc, last_snoc. intros [= <-].
    unfold nolb in Hnolb. apply Forall_app in Hnolb as [_ Hd%Forall_inv].
    unfold in_chars. simpl. rewrite orb_false_r.
    apply orb_false_iff. split; apply N.eqb_neq; intros ->; done.
Qed.

Lemma store_line_nolb path o :
  valid_outcome o → nolb path → nolb (store_line (path, o)).
Proof.
  intros [_ Hns]%token_no_whitespace Hp. unfold store_line, nolb.
  apply Forall_app. split; [by apply no_whitespace_nolb|].
  apply Forall_app. split; [by repeat constructor|done].
Qed.

Lemma parse_written_store (entries : list (str * Outcome)) :
  Forall (λ e, valid_outcome e.2 ∧ e.1 ≠ [] ∧ nolb e.1
    ∧ ∀ c, head e.1 = Some c → isspace c = false ∧ c ≠ STAR) entries →
  parse_hash_file (write_store entries) = store_mapping entries.
Proof.
  intros Hok. unfold parse_hash_file, store_mapping, write_store.
  rewrite splitlines_of_read_text.
  replace (flat_map (λ e, store_line e ++ [LF]) entries)
    with (flat_map (λ l, l ++ [LF]) (store_line <$> entries))
    by (by rewrite flat_map_concat_map, map_map, <- flat_map_concat_map).
  rewrite splitlines_terminated.
  - generalize (∅ : gmap str str).
    induction Hok as [|[p o] es (Ho & Hp & Hn & Hh) _ IH]; intros m; [done|].
    cbn [fmap list_fmap fold_left fst snd].
    rewrite parse_line_store_line by done. apply IH.
  - apply Forall_fmap. eapply Forall_impl; [exact Hok|].
    intros [p o] (Ho & _ & Hn & _). by apply store_line_nolb.
Qed.

(** C4 (amended). A store whose paths are not empty, hold no whitespace
    and do not start with an asterisk is read back from its text as the
    same mapping from path to token, later entries winning. *)
Theorem store_round_trip (entries : list (str * Outcome)) :
  Forall (λ e, valid_outcome e.2 ∧ no_whitespace e.1
               ∧ e.1 ≠ [] ∧ head e.1 ≠ Some STAR) entries →
  parse_hash_file (write_store entries) = store_mapping entries.
Proof.
  intros Hok. apply parse_written_store.
  eapply Forall_impl; [exact Hok|].
  intros [p o] (Ho & Hns & Hp & Hstar). cbn [fst snd] in *.
  split; [done|]. split; [done|]. split; [by apply no_whitespace_nolb|].
  intros c Hc. split; [|by intros ->].
  destruct p as [|d p]; [done|]. injection Hc as ->.
  by apply Forall_inv in Hns.
Qed.

Lemma store_round_trip_witness :
  parse_hash_file (write_store [(py "A.txt", Missing); (py "B.txt", Error);
                                (py "A.txt", Error)])
  = store_mapping [(py "A.txt", Missing); (py "B.txt", Error);
                   (py "A.txt", Error)].
Proof.
  apply store_round_trip.
  repeat constructor; cbn; discriminate.
Defined.

(** C4, as stated, fails: a path that starts with an asterisk loses it when
    the store is read back, and an entry with an empty path is dropped. *)
Lemma asterisk_path_not_round_trip :
  parse_hash_file (write_store [(py "*a", Missing)]) !! py "*a" = None
  ∧ store_mapping [(py "*a", Missing)] !! py "*a" = Some (py "MISSING")
  ∧ parse_hash_file (write_store [([], Missing)]) !! [] = None
  ∧ store_mapping [([], Missing)] !! [] = Some (py "MISSING").
Proof. repeat split; vm_compute; reflexivity. Qed.

(** ** Store files on disk *)

(** C3 (amended). [cmd_init] installs the baseline, and [cmd_check] the
    last scan, by writing the whole text to a side path and renaming it
    onto the store file: in every state another process can observe, the
    baseline during [cmd_init] and the last scan during [cmd_check] hold
    either the old text or the complete new one, and [cmd_check] never
    touches the baseline.  When [cmd_init] is done the last scan holds a
    copy of the new baseline.  A scan that raises ends either command
    before any store file is touched. *)
Theorem store_files_replaced_whole (home_join : str → str) (fs : str → node)
    (raw : str) (d0 : disk) :
  match hash_files_from_list home_join fs raw with
  | Ok out =>
      (∃ states,
         cmd_init home_join fs raw d0 = Ok states
         ∧ Forall (λ d, get BASELINE d = get BASELINE d0
                        ∨ get BASELINE d = Some out) states
         ∧ last states ≫= get BASELINE = Some out
         ∧ last states ≫= get LAST_SCAN = Some (read_text out))
      ∧ (get BASELINE d0 = None →
         cmd_check home_join fs raw d0 = Raise (SystemExit 1))
      ∧ (∀ old, get BASELINE d0 = Some old →
         ∃ states,
           cmd_check home_join fs raw d0
           = Ok (states, (parse_hash_file old, parse_hash_file out))
           ∧ Forall (λ d, get BASELINE d = Some old
                          ∧ (get LAST_SCAN d = get LAST_SCAN d0
                             ∨ get LAST_SCAN d = Some out)) states
           ∧ last states ≫= get LAST_SCAN = Some out)
  | Raise e =>
      cmd_init home_join fs raw d0 = Raise e
      ∧ (get BASELINE d0 = None →
         cmd_check home_join fs raw d0 = Raise (SystemExit 1))
      ∧ (∀ old, get BASELINE d0 = Some old →
         cmd_check home_join fs raw d0 = Raise e)
  end.
Proof.
  destruct d0 as [b l bt st]. unfold cmd_init, cmd_check.
  destruct (hash_files_from_list home_join fs raw) as [out|e]; cbn.
  - split; [|split].
    + eexists. split; [done|]. split; [|done].
      repeat (constructor; [cbn; auto|]). constructor.
    + by intros ->.
    + intros old ->. eexists. split; [done|]. split; [|done].
      repeat (constructor; [cbn; auto|]). constructor.
  - split; [done|]. split; [by intros ->|]. by intros old ->.
Qed.

Lemma store_files_replaced_whole_witness :
  let d0 := Disk (Some (py "MISSING  A.txt" ++ [LF])) None None None in
  ∃ states,
    cmd_check id (λ _, NotAFile) (py "A.txt" ++ [LF]) d0
    = Ok (states,
          (parse_hash_file (py "MISSING  A.txt" ++ [LF]),
           parse_hash_file (py "MISSING  A.txt" ++ [LF])))
    ∧ last states ≫= get LAST_SCAN = Some (py "MISSING  A.txt" ++ [LF]).
Proof.
  intros d0.
  pose proof (store_files_replaced_whole id (λ _, NotAFile)
                (py "A.txt" ++ [LF]) d0) as H.
  assert (hash_files_from_list id (λ _, NotAFile) (py "A.txt" ++ [LF])
          = Ok (py "MISSING  A.txt" ++ [LF])) as E by reflexivity.
  rewrite E in H. destruct H as (_ & _ & H).
  destruct (H (py "MISSING  A.txt" ++ [LF]) eq_refl) as (states & Ec & _ & L).
  exists states. split; [exact Ec|exact L].
Defined.

(** C3, as stated, fails for the last scan written by [cmd_init]: it is
    opened for writing at its final path, so an observer can see it empty,
    which is neither the old text nor the new one. *)
Lemma init_truncates_last_scan :
  let old := py "MISSING  B.txt" ++ [LF] in
  let new := py "MISSING  A.txt" ++ [LF] in
  hash_files_from_list id (λ _, NotAFile) (py "A.txt" ++ [LF]) = Ok new
  ∧ (λ states : list disk, get LAST_SCAN <$> states)
      <$> cmd_init id (λ _, NotAFile) (py "A.txt" ++ [LF])
            (Disk (Some old) (Some old) None None)
    = Ok [Some old; Some old; Some old; Some []; Some new].
Proof. split; vm_compute; reflexivity. Qed.

(** ** Instances at concrete inputs *)

Lemma remove_rewrites_witness :
  let raw := py "# list" ++ [LF; LF] ++ py "A.txt" ++ [LF] ++ py "B.txt" in
  splitlines (read_text (cmd_remove (py "A.txt") raw))
    = [py "# list"; []; py "B.txt"]
  ∧ trailing_newlines (cmd_remove (py "A.txt") raw) = 1%nat.
Proof.
  intros raw.
  destruct (remove_rewrites (py "A.txt") raw) as (_ & H2 & _ & _ & H5).
  split; [exact H2|]. apply H5. discriminate.
Defined.

Lemma hello_digest_witness :
  let fs := λ p : str,
    if decide (p = py "A.txt") then IsFile (RegularFile (py "hello") NoFault)
    else NotAFile in
  ∃ states,
    cmd_init id fs (py "A.txt" ++ [LF]) (Disk None None None None) = Ok states
    ∧ last states ≫= get BASELINE
      = Some (py "2cf24dba5fb0a30e26e83b2ac5b9e29e1b161e5c1fa7425e73043362938b9824  A.txt" ++ [LF]).
Proof.
  intros fs. apply (proj2 hello_digest id fs). reflexivity.
Defined.

(** The scenario of a list with [A.txt] ("hello") and [B.txt] ("b"):
    [cmd_init] with both files present, then [cmd_check] after [B.txt] was
    deleted, logs one finding and the alert. *)
Example deleted_file_scenario :
  let listed := py "A.txt" ++ [LF] ++ py "B.txt" ++ [LF] in
  let before := λ p : str,
    if decide (p = py "A.txt") then IsFile (RegularFile (py "hello") NoFault)
    else if decide (p = py "B.txt") then IsFile (RegularFile (py "b") NoFault)
    else NotAFile in
  let after := λ p : str,
    if decide (p = py "A.txt") then IsFile (RegularFile (py "hello") NoFault)
    else NotAFile in
  ∃ states d,
    cmd_init id before listed (Disk None None None None) = Ok states
    ∧ last states = Some d
    ∧ (λ r, report (py "fic.log") r.2.1 r.2.2) <$> cmd_check id after listed d
      = Ok [py "Scan complete. Comparing with baseline...";
            py "MISSING: B.txt";
            py "ALERT: Detected 1 change(s). See log: fic.log"].
Proof.
  intros listed before after. eexists _, _.
  split; [vm_compute; reflexivity|]. split; [reflexivity|].
  vm_compute. reflexivity.
Qed.

(** * Further properties of the script *)

(** ** Trimming *)

Lemma lstrip_with_split f s :
  ∃ pre, s = pre ++ lstrip_with f s ∧ Forall (λ c, f c = true) pre.
Proof.
  induction s as [|c s (pre & E & Hpre)]; [by exists []|].
  simpl. destruct (f c) eqn:Ec; [|by exists []].
  exists (c :: pre). split; [by rewrite E at 1|by constructor].
Qed.

Lemma lstrip_with_stops f s c :
  head (lstrip_with f s) = Some c → f c = false.
Proof.
  induction s as [|d s IH]; [done|]. simpl.
  destruct (f d) eqn:Ed; [done|]. by intros [= <-].
Qed.

Lemma rstrip_with_split f s :
  ∃ suf, s = rstrip_with f s ++ suf ∧ Forall (λ c, f c = true) suf.
Proof.
  unfold rstrip_with. destruct (lstrip_with_split f (rev s)) as (pre & E & H).
  exists (rev pre). split; [|by apply Forall_rev].
  rewrite <- rev_app_distr, <- E. by rewrite rev_involutive.
Qed.

Lemma rstrip_with_stops f s c :
  last (rstrip_with f s) = Some c → f c = false.
Proof.
  unfold rstrip_with. rewrite <- head_rev, rev_involutive.
  apply lstrip_with_stops.
Qed.

(** What [strip] removes is whitespace, and what it leaves neither starts
    nor ends with whitespace. *)
Lemma strip_split s :
  ∃ pre suf, s = pre ++ strip s ++ suf
    ∧ Forall (λ c, isspace c = true) pre ∧ Forall (λ c, isspace c = true) suf.
Proof.
  destruct (lstrip_with_split isspace s) as (pre & E1 & H1).
  destruct (rstrip_with_split isspace (lstrip_with isspace s))
    as (suf & E2 & H2).
  exists pre, suf. unfold strip. by rewrite <- E2.
Qed.

Lemma strip_head s c : head (strip s) = Some c → isspace c = false.
Proof.
  unfold strip.
  destruct (rstrip_with_split isspace (lstrip_with isspace s)) as (suf & E & _).
  intros H. apply (lstrip_with_stops isspace s). rewrite E.
  destruct (rstrip_with isspace (lstrip_with isspace s)); [done|exact H].
Qed.

Lemma strip_last s c : last (strip s) = Some c → isspace c = false.
Proof. apply rstrip_with_stops. Qed.

Lemma strip_strip s : strip (strip s) = strip s.
Proof.
  unfold strip at 1. rewrite (lstrip_with_head isspace (strip s)).
  - apply rstrip_with_last. apply strip_last.
  - apply strip_head.
Qed.

Lemma strip_nolb s : nolb s → nolb (strip s).
Proof.
  destruct (strip_split s) as (pre & suf & E & _ & _). intros H.
  unfold nolb in *. rewrite E in H.
  by apply Forall_app in H as [_ [H _]%Forall_app].
Qed.

Lemma strip_nil : strip [] = [].
Proof. done. Qed.

(** ** The path list store *)

Lemma list_entry_nil hj : list_entry hj [] = None.
Proof. done. Qed.

Lemma list_entry_plain hj p : plain_entry p → list_entry hj p = Some p.
Proof.
  intros (Hne & Hs & _ & Hh & Ht). unfold list_entry. rewrite Hs.
  rewrite bool_decide_eq_false_2 by done. by rewrite Hh, Ht.
Qed.

Lemma list_entry_inv hj raw p :
  nolb raw → list_entry hj raw = Some p →
  (∃ r, p = hj r) ∨ plain_entry p.
Proof.
  intros Hraw. unfold list_entry.
  destruct (bool_decide (strip raw = [])) eqn:E1; [done|].
  destruct (startswith (strip raw) [HASH]) eqn:E2; [done|]. cbn [orb].
  destruct (startswith (strip raw) (py "~/")) eqn:E3; intros [= <-].
  - left. by eexists.
  - right. apply bool_decide_eq_false in E1.
    split; [done|]. split; [apply strip_strip|].
    split; [by apply strip_nolb|done].
Qed.

(** X1. Every path [iter_list_paths] yields is either the result of the
    home expansion or a plain entry: a line that is not empty, has no
    surrounding whitespace and no line boundary, and is neither a comment
    nor written with the home shorthand. *)
Theorem listed_paths_are_plain (home_join : str → str) (raw : str) :
  Forall (λ p, (∃ r, p = home_join r) ∨ plain_entry p)
    (iter_list_paths home_join raw).
Proof.
  unfold iter_list_paths. apply Forall_forall. intros p.
  rewrite list_elem_of_omap. intros (l & Hl & Hp).
  apply (list_entry_inv home_join l); [|done].
  pose proof (splitlines_nolb (read_text raw)) as H.
  rewrite Forall_forall in H. by apply H.
Qed.

Lemma filter_twice (P : str → Prop) `{∀ x, Decision (P x)} (l : list str) :
  filter P (filter P l) = filter P l.
Proof.
  induction l as [|x l IH]; [done|].
  destruct (decide (P x)) as [Hx|Hx].
  - rewrite !(filter_cons_True P x) by done. by rewrite IH.
  - by rewrite !(filter_cons_False P x) by done.
Qed.

Lemma filter_none (P : str → Prop) `{∀ x, Decision (P x)} (l : list str) :
  Forall (λ x, ¬ P x) l → filter P l = [].
Proof.
  induction 1 as [|x l Hx _ IH]; [done|]. by rewrite filter_cons_False.
Qed.

Lemma cmd_remove_lines path raw :
  splitlines (read_text (cmd_remove path raw))
  = let kept := filter (λ ln, strip ln ≠ path) (splitlines (read_text raw)) in
    if decide (kept = []) then [[]] else kept.
Proof.
  cbv zeta. rewrite splitlines_of_read_text. unfold cmd_remove.
  set (kept := filter _ _).
  destruct (decide (kept = [])) as [->|Hne]; [done|].
  rewrite join_terminated by done. apply splitlines_terminated.
  apply Forall_forall. intros l [_ Hl]%list_elem_of_filter.
  revert l Hl. apply Forall_forall, splitlines_nolb.
Qed.

(** X2. After [cmd_remove] the list yields the entries of the lines that
    were kept, in their order; and unless the path is empty, no line of the
    new file has the path as trimmed content. *)
Theorem remove_then_load (home_join : str → str) (path raw : str) :
  iter_list_paths home_join (cmd_remove path raw)
  = omap (list_entry home_join)
      (filter (λ ln, strip ln ≠ path) (splitlines (read_text raw)))
  ∧ (path ≠ [] → occurrences path (cmd_remove path raw) = 0%nat).
Proof.
  unfold iter_list_paths, occurrences. rewrite cmd_remove_lines. cbv zeta.
  set (kept := filter _ _).
  destruct (decide (kept = [])) as [->|Hne].
  - split; [done|]. intros Hp. rewrite filter_cons_False; [done|].
    intros E. by rewrite strip_nil in E.
  - split; [done|]. intros _. apply length_zero_iff_nil.
    apply filter_none, Forall_forall.
    by intros l [? _]%list_elem_of_filter.
Qed.

Lemma remove_then_load_witness :
  occurrences (py "a") (cmd_remove (py "a") (py " a " ++ [LF] ++ py "a")) = 0%nat.
Proof. apply (proj2 (remove_then_load id (py "a") _)). discriminate. Defined.

(** X3. [cmd_remove] is idempotent: removing the same path again rewrites
    the file with the same text. *)
Theorem remove_idempotent (path raw : str) :
  cmd_remove path (cmd_remove path raw) = cmd_remove path raw.
Proof.
  unfold cmd_remove at 1. rewrite cmd_remove_lines. cbv zeta.
  unfold cmd_remove.
  set (kept := filter (λ ln, strip ln ≠ path) (splitlines (read_text raw))).
  destruct (decide (kept = [])) as [->|Hne].
  - destruct (decide (path = [])) as [->|Hp].
    + by rewrite filter_cons_False by (intros H; by apply H).
    + rewrite filter_cons_True; [done|]. by rewrite strip_nil.
  - unfold kept. by rewrite filter_twice.
Qed.

Lemma absent_filter_all path (ls : list str) :
  existsb (λ line, str_eqb (strip line) path) ls = false →
  filter (λ ln, strip ln ≠ path) ls = ls.
Proof.
  induction ls as [|l ls IH]; [done|]. simpl.
  intros [H1 H2]%orb_false_iff. unfold str_eqb in H1.
  apply bool_decide_eq_false in H1.
  rewrite filter_cons_True by done. by rewrite IH.
Qed.

Lemma omap_blank hj (blank : list str) :
  blank = [] ∨ blank = [[]] → omap (list_entry hj) blank = [].
Proof. by intros [-> | ->]. Qed.

(** X4. Adding a plain entry that can be encoded and that the list lacks
    ends without exception and makes it the last path the list yields,
    after the paths it yielded before. *)
Theorem add_then_load (home_join : str → str) (path raw : str) :
  plain_entry path →
  encodable path = true →
  existsb (λ line, str_eqb (strip line) path) (splitlines (read_text raw))
    = false →
  (cmd_add path raw).2 = Ok tt
  ∧ iter_list_paths home_join (cmd_add path raw).1
    = iter_list_paths home_join raw ++ [path].
Proof.
  intros Hplain Henc Habs. pose proof Hplain as (Hne & _ & Hnolb & _).
  split.
  - destruct (cmd_add_cases path raw Habs Henc)
      as [[_ ->]|[[_ ->]|(l & _ & _ & ->)]]; done.
  - destruct (cmd_add_lines path raw Habs Henc Hnolb Hne)
      as (blank & Hb & _ & Hl).
    unfold iter_list_paths.
    rewrite Hl, !omap_app, (omap_blank _ blank) by done.
    cbn. by rewrite list_entry_plain.
Qed.

Lemma add_then_load_witness :
  iter_list_paths id
    (cmd_add (py "/etc/hosts") (py "# files" ++ [LF] ++ py "a.txt")).1
  = iter_list_paths id (py "# files" ++ [LF] ++ py "a.txt") ++ [py "/etc/hosts"].
Proof.
  apply add_then_load; [|reflexivity..].
  repeat split; try reflexivity; try discriminate. repeat constructor.
Defined.

(** The listed paths after an entry that the list lacks was removed from
    lines that hold the old ones, empty lines and that entry. *)
Lemma remove_added_lines (home_join : str → str) (path raw' raw : str)
    (blank added : list str) :
  path ≠ [] →
  existsb (λ line, str_eqb (strip line) path) (splitlines (read_text raw))
    = false →
  blank = [] ∨ blank = [[]] →
  added = [] ∨ (added = [path] ∧ strip path = path) →
  splitlines (read_text raw') = splitlines (read_text raw) ++ blank ++ added →
  iter_list_paths home_join (cmd_remove path raw')
  = iter_list_paths home_join raw.
Proof.
  intros Hne Habs Hb Ha Hl.
  unfold iter_list_paths at 1. rewrite cmd_remove_lines, Hl. cbv zeta.
  rewrite !filter_app, absent_filter_all by done.
  assert (filter (λ ln, strip ln ≠ path) added = []) as ->.
  { destruct Ha as [->|[-> Hs]]; [done|].
    by rewrite filter_cons_False by (intros H; by apply H). }
  assert (filter (λ ln, strip ln ≠ path) blank = blank) as ->.
  { destruct Hb as [-> | ->]; [done|].
    rewrite filter_cons_True; [done|]. rewrite strip_nil. by intros <-. }
  rewrite app_nil_r. unfold iter_list_paths.
  destruct (decide (_ = [])) as [E|_].
  - apply app_eq_nil in E as [-> ->]. done.
  - by rewrite omap_app, (omap_blank _ blank), app_nil_r.
Qed.

(** X5. Adding a plain entry that the list lacks and removing it again
    leaves the paths the list yields as they were, also when the entry
    cannot be encoded and [cmd_add] raises. *)
Theorem add_then_remove_restores (home_join : str → str) (path raw : str) :
  plain_entry path →
  existsb (λ line, str_eqb (strip line) path) (splitlines (read_text raw))
    = false →
  iter_list_paths home_join (cmd_remove path (cmd_add path raw).1)
  = iter_list_paths home_join raw.
Proof.
  intros Hplain Habs. pose proof Hplain as (Hne & Hs & Hnolb & _).
  destruct (encodable path) eqn:Henc.
  - destruct (cmd_add_lines path raw Habs Henc Hnolb Hne)
      as (blank & Hb & _ & Hl).
    apply (remove_added_lines _ _ _ _ blank [path]); auto.
  - destruct (cmd_add_sep path raw Habs) as (sep & -> & Hsep).
    unfold f_write. rewrite encodable_line, Henc. cbn [fst].
    destruct (cmd_add_sep_lines raw sep Hsep) as (blank & Hb & Hl).
    apply (remove_added_lines _ _ _ _ blank []); auto.
    by rewrite app_nil_r.
Qed.

Lemma add_then_remove_restores_witness :
  iter_list_paths id
    (cmd_remove (py "b.txt") (cmd_add (py "b.txt") (py "a.txt" ++ [LF])).1)
  = iter_list_paths id (py "a.txt" ++ [LF]).
Proof.
  apply add_then_remove_restores; [|reflexivity].
  repeat split; try reflexivity; try discriminate. repeat constructor.
Defined.




(** ** Reading a store *)

Lemma lstrip_with_all f s :
  Forall (λ c, f c = true) s → lstrip_with f s = [].
Proof. induction 1 as [|c s Hc _ IH]; [done|]. simpl. by rewrite Hc. Qed.

Lemma lstrip_with_app f pre s :
  Forall (λ c, f c = true) pre →
  lstrip_with f (pre ++ s) = lstrip_with f s.
Proof. induction 1 as [|c pre Hc _ IH]; [done|]. simpl. by rewrite Hc. Qed.

Lemma rstrip_crlf_line l :
  nolb l → rstrip_with (in_chars [CR; LF]) l = l.
Proof.
  intros Hl. apply rstrip_with_last. intros c Hc.
  assert (islinebreak c = false) as Hb.
  { unfold nolb in Hl. rewrite Forall_forall in Hl. apply Hl.
    apply last_Some in Hc as [l' ->]. apply elem_of_app. right. left. }
  unfold in_chars. simpl. rewrite orb_false_r.
  apply orb_false_iff. split; apply N.eqb_neq; intros ->; done.
Qed.

Lemma span_field_spec s :
  s = (span_field s).1 ++ (span_field s).2
  ∧ no_whitespace (span_field s).1
  ∧ (∀ c, head (span_field s).2 = Some c → isspace c = true).
Proof.
  induction s as [|c s (E & Hn & Hh)]; [by repeat constructor|].
  simpl. destruct (isspace c) eqn:Ec.
  - simpl. split; [done|]. split; [constructor|]. by intros d [= <-].
  - destruct (span_field s) as [tok rest]. simpl in *.
    split; [by rewrite E at 1|]. split; [by constructor|done].
Qed.

(** X7. A line of a store with fewer than two fields (blank, or a single
    word) is ignored by [parse_hash_file]. *)
Theorem single_field_line_ignored (mapping : gmap str str) (l : str) :
  nolb l → no_whitespace (strip l) → parse_line mapping l = mapping.
Proof.
  intros Hl Hs. unfold parse_line. rewrite rstrip_crlf_line by done.
  destruct l as [|c l]; [done|]. set (line := c :: l) in *.
  unfold split_maxsplit1.
  destruct (rstrip_with_split isspace (lstrip_with isspace line))
    as (suf & E & Hsuf).
  fold (strip line) in E. rewrite E.
  destruct (strip line ++ suf) as [|d s1] eqn:E1; [done|]. rewrite <- E1.
  rewrite span_field_token; [| done |].
  - rewrite lstrip_with_all by done. done.
  - intros e He. rewrite Forall_forall in Hsuf. apply Hsuf.
    destruct suf; [done|]. injection He as ->. left.
Qed.

Lemma single_field_line_ignored_witness :
  parse_line ∅ (py "  e3b0c44298fc1c14  ") = ∅.
Proof.
  apply single_field_line_ignored; [repeat constructor|].
  vm_compute. repeat constructor.
Defined.

Lemma lstrip_marks_only marks path :
  Forall (λ c, c = SPACE ∨ c = STAR) marks →
  (∀ c, head path = Some c → isspace c = false ∧ c ≠ STAR) →
  lstrip_with (in_chars [SPACE; STAR]) (marks ++ path) = path.
Proof.
  intros Hm Hp. induction Hm as [|c marks Hc _ IH].
  - apply lstrip_with_head. intros c [Hs Hstar]%Hp.
    unfold in_chars. simpl. rewrite orb_false_r.
    apply orb_false_iff. split; apply N.eqb_neq; [|done]. by intros ->.
  - cbn [app]. simpl. destruct Hc as [-> | ->]; exact IH.
Qed.

Lemma lstrip_marks marks path :
  Forall (λ c, c = SPACE ∨ c = STAR) marks →
  (∀ c, head path = Some c → isspace c = false ∧ c ≠ STAR) →
  lstrip_with (in_chars [SPACE; STAR]) (lstrip_with isspace (marks ++ path))
  = path.
Proof.
  intros Hm Hp. induction Hm as [|c marks Hc Hm IH].
  - simpl. rewrite (lstrip_with_head isspace path) by (intros c [? _]%Hp; done).
    by apply (lstrip_marks_only []).
  - destruct Hc as [-> | ->]; [exact IH|].
    change (lstrip_with isspace ((STAR :: marks) ++ path))
      with ((STAR :: marks) ++ path).
    apply lstrip_marks_only; [|done]. constructor; auto.
Qed.

Lemma split_fields pre tok rest :
  Forall (λ c, isspace c = true) pre → tok ≠ [] → no_whitespace tok →
  (∀ c, head rest = Some c → isspace c = true) →
  split_maxsplit1 (pre ++ tok ++ rest)
  = match lstrip_with isspace rest with
    | [] => [tok]
    | rem => [tok; rem]
    end.
Proof.
  intros Hpre Htok Hns Hrest. unfold split_maxsplit1.
  rewrite lstrip_with_app by done.
  rewrite lstrip_with_head.
  - destruct tok as [|t tok]; [done|]. cbn [app].
    change (t :: tok ++ rest) with ((t :: tok) ++ rest).
    by rewrite span_field_token.
  - destruct tok as [|t tok]; [done|]. intros c [= <-].
    by apply Forall_inv in Hns.
Qed.

(** X8. A store line made of a token, a run of whitespace, any mix of
    spaces and asterisks, and a storable path maps the path to the token,
    also when whitespace comes before the token: the text and binary forms
    of checksum lists are read alike. *)
Theorem checksum_line_forms (mapping : gmap str str)
    (pre tok gap marks path : str) :
  Forall (λ c, isspace c = true) pre →
  tok ≠ [] → no_whitespace tok →
  gap ≠ [] → Forall (λ c, isspace c = true) gap →
  Forall (λ c, c = SPACE ∨ c = STAR) marks →
  storable path → nolb (pre ++ tok ++ gap ++ marks) →
  parse_line mapping (pre ++ tok ++ gap ++ marks ++ path)
  = <[path := tok]> mapping.
Proof.
  intros Hpre Htok Hns Hgap Hws Hmarks (Hne & Hnolb & Hhead) Hline.
  unfold parse_line. rewrite rstrip_crlf_line.
  2:{ unfold nolb in *. rewrite !app_assoc. apply Forall_app. split; [|done].
      by rewrite <- !app_assoc. }
  destruct (pre ++ tok ++ gap ++ marks ++ path) eqn:E.
  { apply (f_equal (@length N)) in E. rewrite !length_app in E.
    destruct tok; [done|]. simpl in E. lia. }
  rewrite <- E. clear E.
  rewrite split_fields; [|done|done|done|].
  2:{ destruct gap as [|g gap]; [done|]. intros c [= <-].
      by apply Forall_inv in Hws. }
  rewrite lstrip_with_app by done.
  pose proof (lstrip_marks marks path Hmarks Hhead) as Hkey.
  destruct (lstrip_with isspace (marks ++ path)) as [|r rs] eqn:Er.
  - simpl in Hkey. congruence.
  - by rewrite Hkey.
Qed.

Lemma checksum_line_forms_witness :
  parse_line ∅ (py "ab12" ++ py " " ++ py "*" ++ py "bin/tool")
  = <[py "bin/tool" := py "ab12"]> ∅.
Proof.
  apply (checksum_line_forms ∅ [] (py "ab12") (py " ") (py "*") (py "bin/tool"));
    try done; try (repeat constructor; fail).
  split; [done|]. split; [repeat constructor|].
  intros c [= <-]. done.
Defined.

Lemma parse_line_clean m l : clean_store m → clean_store (parse_line m l).
Proof.
  intros Hm. unfold parse_line.
  destruct (rstrip_with (in_chars [CR; LF]) l) as [|c line] eqn:El; [done|].
  rewrite <- El. clear El. generalize (rstrip_with (in_chars [CR; LF]) l).
  intros s. unfold split_maxsplit1.
  destruct (lstrip_with isspace s) as [|d s1] eqn:E1; [done|].
  pose proof (span_field_spec (d :: s1)) as (E & Hns & _).
  destruct (span_field (d :: s1)) as [tok rest] eqn:Esp. simpl in E, Hns.
  destruct (lstrip_with isspace rest) as [|r rem] eqn:Er; [done|].
  intros p t. rewrite lookup_insert. case_decide as Hp; [|apply Hm].
  intros [= <-]. split; [|split; [done|]].
  - intros ->. simpl in E. subst rest.
    pose proof (lstrip_with_stops isspace s d) as Hd. rewrite E1 in Hd.
    specialize (Hd eq_refl).
    simpl in Esp. rewrite Hd in Esp. by destruct (span_field s1).
  - intros e He. rewrite <- Hp in He.
    apply lstrip_with_stops in He. unfold in_chars in He. simpl in He.
    rewrite orb_false_r in He. apply orb_false_iff in He as [H1 H2].
    apply N.eqb_neq in H1, H2. done.
Qed.

Lemma parse_hash_file_clean (raw : str) : clean_store (parse_hash_file raw).
Proof.
  unfold parse_hash_file.
  assert (clean_store (∅ : gmap str str)) as H0
    by (intros p t; by rewrite lookup_empty).
  revert H0. generalize (∅ : gmap str str).
  induction (splitlines (read_text raw)) as [|l ls IH]; intros m Hm; [done|].
  simpl. apply IH. by apply parse_line_clean.
Qed.

(** X9. Whatever the text of a store file, every token [parse_hash_file]
    records is a non-empty word without whitespace, and no recorded path
    starts with a space or an asterisk. *)
Theorem parsed_store_is_clean (raw p t : str) :
  parse_hash_file raw !! p = Some t →
  t ≠ [] ∧ no_whitespace t ∧ ∀ c, head p = Some c → c ≠ SPACE ∧ c ≠ STAR.
Proof. apply parse_hash_file_clean. Qed.

Lemma parsed_store_is_clean_witness :
  py "ab" ≠ [] ∧ no_whitespace (py "ab")
  ∧ ∀ c, head (py "x y") = Some c → c ≠ SPACE ∧ c ≠ STAR.
Proof.
  apply (parsed_store_is_clean (py "ab   ** x y" ++ [CR; LF] ++ py "junk")).
  vm_compute. reflexivity.
Defined.

Lemma splitlines_from_crlf_line cur l s :
  nolb l →
  splitlines_from cur (l ++ CR :: LF :: s)
  = (rev cur ++ l) :: splitlines_from [] s.
Proof.
  intros Hl. revert cur. induction Hl as [|c l Hc Hl IH]; intros cur.
  - cbn [app]. by rewrite sl_crlf, app_nil_r.
  - rewrite <- app_comm_cons, sl_char by done. rewrite IH. simpl.
    by rewrite <- app_assoc.
Qed.

Lemma splitlines_crlf_terminated (ls : list str) :
  Forall nolb ls → splitlines (flat_map (λ l, l ++ [CR; LF]) ls) = ls.
Proof.
  unfold splitlines. induction 1 as [|l ls Hl Hls IH]; [done|].
  simpl. rewrite <- app_assoc. simpl.
  rewrite splitlines_from_crlf_line by done. by rewrite IH.
Qed.

(** X10. Line ends do not matter: a store file and a list file whose lines
    end with carriage return and line feed are read as the same files with
    plain line feeds, line by line. *)
Theorem crlf_files_read_alike (home_join : str → str) (ls : list str) :
  Forall nolb ls →
  parse_hash_file (flat_map (λ l, l ++ [CR; LF]) ls)
  = parse_hash_file (flat_map (λ l, l ++ [LF]) ls)
  ∧ parse_hash_file (flat_map (λ l, l ++ [LF]) ls)
    = fold_left parse_line ls ∅
  ∧ iter_list_paths home_join (flat_map (λ l, l ++ [CR; LF]) ls)
    = iter_list_paths home_join (flat_map (λ l, l ++ [LF]) ls)
  ∧ iter_list_paths home_join (flat_map (λ l, l ++ [LF]) ls)
    = omap (list_entry home_join) ls.
Proof.
  intros Hls. unfold parse_hash_file, iter_list_paths.
  rewrite !splitlines_of_read_text.
  by rewrite splitlines_crlf_terminated, splitlines_terminated.
Qed.

Lemma crlf_files_read_alike_witness :
  iter_list_paths id (flat_map (λ l, l ++ [CR; LF]) [py "a.txt"; py "# c"])
  = iter_list_paths id (flat_map (λ l, l ++ [LF]) [py "a.txt"; py "# c"]).
Proof.
  apply (crlf_files_read_alike id [py "a.txt"; py "# c"]).
  repeat constructor.
Defined.

(** ** From the list to the parsed scan *)

Lemma plain_entry_storable p :
  plain_entry p → head p ≠ Some STAR → storable p.
Proof.
  intros (Hne & Hs & Hn & _) Hstar. split; [done|]. split; [done|].
  intros c Hc. split; [|by intros ->].
  apply (strip_head p). by rewrite Hs.
Qed.

Lemma records_lookup (fs : str → node) (ps : list str) (es : list (str * Outcome))
    (m0 : gmap str str) (p : str) :
  records fs ps es →
  if decide (p ∈ ps)
  then ∃ o, outcome_of fs p = Ok o
            ∧ fold_left (λ m e, <[e.1 := token e.2]> m) es m0 !! p
              = Some (token o)
  else fold_left (λ m e, <[e.1 := token e.2]> m) es m0 !! p = m0 !! p.
Proof.
  intros Hes. revert m0. unfold records in Hes.
  induction Hes as [|q e ps es [Eq Hq] _ IH]; intros m0.
  - by rewrite decide_False by apply not_elem_of_nil.
  - cbn [fold_left]. specialize (IH (<[e.1 := token e.2]> m0)).
    destruct (decide (p ∈ ps)) as [Hin|Hout].
    + by rewrite decide_True by (by right).
    + subst q. destruct (decide (p = e.1)) as [->|Hne].
      * rewrite decide_True by left. exists e.2. split; [done|].
        by rewrite IH, lookup_insert_eq.
      * rewrite decide_False by (by intros [?|?]%elem_of_cons).
        by rewrite IH, lookup_insert_ne.
Qed.

Lemma records_storable (fs : str → node) (ps : list str) (es : list (str * Outcome)) :
  records fs ps es → Forall storable ps →
  Forall (λ e, valid_outcome e.2 ∧ e.1 ≠ [] ∧ nolb e.1
    ∧ ∀ c, head e.1 = Some c → isspace c = false ∧ c ≠ STAR) es.
Proof.
  intros Hes. unfold records in Hes.
  induction Hes as [|q e ps es [Eq Hq] _ IH]; [constructor|].
  intros [(Hne & Hn & Hh) Hst]%Forall_cons. subst q.
  constructor; [|by apply IH]. split; [|done].
  by apply outcome_of_valid in Hq.
Qed.

Lemma scan_store_lookup (home_join : str → str) (fs : str → node)
    (raw out p : str) :
  Forall storable (iter_list_paths home_join raw) →
  hash_files_from_list home_join fs raw = Ok out →
  if decide (p ∈ iter_list_paths home_join raw)
  then ∃ o, outcome_of fs p = Ok o
            ∧ parse_hash_file out !! p = Some (token o)
  else parse_hash_file out !! p = None.
Proof.
  intros Hst Hout.
  pose proof (hash_files_from_list_store home_join fs raw) as H.
  rewrite Hout in H. destruct H as (es & Hes & ->).
  rewrite parse_written_store by (by eapply records_storable).
  unfold store_mapping.
  pose proof (records_lookup fs _ es ∅ p Hes) as Hl.
  by rewrite lookup_empty in Hl.
Qed.

(** X11. When every listed path is storable, the store written by
    [hash_files_from_list] and read back by [parse_hash_file] maps each
    listed path to the token of its outcome, and nothing else. *)
Theorem scan_store_reads_back (home_join : str → str) (fs : str → node)
    (raw out p : str) :
  Forall storable (iter_list_paths home_join raw) →
  hash_files_from_list home_join fs raw = Ok out →
  if decide (p ∈ iter_list_paths home_join raw)
  then ∃ o, outcome_of fs p = Ok o
            ∧ parse_hash_file out !! p = Some (token o)
  else parse_hash_file out !! p = None.
Proof. apply scan_store_lookup. Qed.

Lemma scan_store_reads_back_witness :
  ∃ o, outcome_of (λ _, NotAFile) (py "a b.txt") = Ok o
       ∧ parse_hash_file (py "MISSING  a b.txt" ++ [LF]) !! py "a b.txt"
         = Some (token o).
Proof.
  pose proof (scan_store_reads_back id (λ _, NotAFile)
                (py "a b.txt" ++ [LF]) (py "MISSING  a b.txt" ++ [LF])
                (py "a b.txt")) as H.
  assert (iter_list_paths id (py "a b.txt" ++ [LF]) = [py "a b.txt"]) as E
    by reflexivity.
  rewrite E in H. rewrite decide_True in H by left.
  apply H; [|reflexivity].
  constructor; [|constructor].
  split; [done|]. split; [repeat constructor|]. intros c [= <-]. done.
Defined.

(** ** What the comparison reports *)

Lemma finding_message_inj f g :
  finding_message f = finding_message g → f = g.
Proof.
  destruct f as [p|p|p|p|p], g as [q|q|q|q|q]; cbn; intros H;
    first [ discriminate H | congruence | idtac ].
  all: try (f_equal; congruence).
Qed.

Lemma classify_path scan p b f : f ∈ classify scan p b → finding_path f = p.
Proof.
  unfold classify.
  destruct (scan !! p) as [s|]; repeat case_decide; intros Hf;
    repeat (apply elem_of_cons in Hf as [-> | Hf]); try done;
    by apply elem_of_nil in Hf.
Qed.

Lemma compare_logged (base scan : gmap str str) msg :
  msg ∈ (compare base scan).1
  ↔ ∃ f, msg = finding_message f
         ∧ (f ∈ phase1 base scan ∨ f ∈ phase2 base scan).
Proof.
  rewrite compare_phases. cbn [fst]. rewrite list_elem_of_fmap.
  by setoid_rewrite elem_of_app.
Qed.

Lemma phase1_inv (base scan : gmap str str) f :
  f ∈ phase1 base scan →
  ∃ b, base !! finding_path f = Some b ∧ f ∈ classify scan (finding_path f) b.
Proof.
  unfold phase1. rewrite list_elem_of_bind. intros ([p b] & Hf & Hin).
  apply sorted_items_lookup in Hin. cbn [fst snd] in *.
  pose proof (classify_path _ _ _ _ Hf) as ->. by exists b.
Qed.

Lemma phase2_spec (base scan : gmap str str) f :
  f ∈ phase2 base scan
  ↔ ∃ p, f = FNew p ∧ is_Some (scan !! p) ∧ base !! p = None.
Proof.
  unfold phase2, sorted_new_keys. rewrite list_elem_of_fmap.
  setoid_rewrite merge_sort_Permutation.
  setoid_rewrite elem_of_elements. setoid_rewrite elem_of_difference.
  setoid_rewrite elem_of_dom. setoid_rewrite <- eq_None_not_Some. done.
Qed.

Lemma logged_changes (base scan : gmap str str) msg :
  msg ∈ (compare base scan).1 → (compare base scan).2 ≠ 0.
Proof.
  rewrite compare_phases. cbn [fst snd]. intros H E.
  assert (length (finding_message <$>
    phase1 base scan ++ phase2 base scan) = 0%nat) as E'
    by (rewrite length_fmap; lia).
  apply length_zero_iff_nil in E'. rewrite E' in H. by apply elem_of_nil in H.
Qed.

(** X12. Every path whose entries differ between the baseline and the
    scan is reported, with the class the code gives it: new when the
    baseline lacks it, not scanned when the scan lacks it, missing or error
    when the scan holds that sentinel, modified otherwise; and the counter
    is then not zero. *)
Theorem every_drift_is_reported (base scan : gmap str str) (p : str) :
  base !! p ≠ scan !! p →
  let f := match base !! p, scan !! p with
           | None, _ => FNew p
           | Some _, None => FMissingNotScanned p
           | Some b, Some s =>
               if decide (s = py "MISSING") then FMissing p
               else if decide (s = py "ERROR") then FError p
               else FModified p
           end in
  finding_message f ∈ (compare base scan).1 ∧ (compare base scan).2 ≠ 0.
Proof.
  intros Hne f.
  assert (finding_message f ∈ (compare base scan).1) as Hin.
  { apply compare_logged. exists f. split; [done|]. unfold f.
    destruct (base !! p) as [b|] eqn:Hb.
    - left. apply (phase1_elem base scan p b); [done|]. unfold classify.
      destruct (scan !! p) as [s|]; [|left].
      repeat case_decide; try left. congruence.
    - right. apply phase2_spec. exists p. split; [done|]. split; [|done].
      destruct (scan !! p); [by eexists|done]. }
  split; [done|]. by eapply logged_changes.
Qed.

Lemma every_drift_is_reported_witness :
  finding_message (FModified (py "a"))
    ∈ (compare {[ py "a" := py "11" ]} {[ py "a" := py "22" ]}).1.
Proof.
  assert (({[ py "a" := py "11" ]} : gmap str str) !! py "a"
          ≠ ({[ py "a" := py "22" ]} : gmap str str) !! py "a") as Hne
    by (rewrite !lookup_singleton_eq; discriminate).
  destruct (every_drift_is_reported _ _ _ Hne) as [Hin _].
  rewrite !lookup_singleton_eq in Hin.
  rewrite !decide_False in Hin by discriminate. exact Hin.
Defined.

(** X13. A path with the same entry in both stores, or in neither, is not
    mentioned by any message of the comparison, unless that entry is a
    sentinel. *)
Theorem unchanged_path_is_silent (base scan : gmap str str) (p : str)
    (f : Finding) :
  base !! p = scan !! p →
  scan !! p ≠ Some (py "MISSING") → scan !! p ≠ Some (py "ERROR") →
  finding_path f = p →
  finding_message f ∉ (compare base scan).1.
Proof.
  intros Heq Hm He Hp. rewrite compare_logged.
  intros (g & Hg%finding_message_inj & [H1|H2]); subst g.
  - apply phase1_inv in H1 as (b & Hb & Hf). rewrite Hp in *.
    unfold classify in Hf. rewrite <- Heq, Hb in Hf.
    rewrite Hb in Heq. rewrite <- Heq in Hm, He.
    rewrite !decide_False in Hf by congruence.
    rewrite decide_True in Hf by done. by apply elem_of_nil in Hf.
  - apply phase2_spec in H2 as (q & -> & [s Hs] & Hb). cbn in Hp. subst q.
    congruence.
Qed.

Lemma unchanged_path_is_silent_witness :
  finding_message (FModified (py "a"))
    ∉ (compare {[ py "a" := py "11" ]} {[ py "a" := py "11" ]}).1.
Proof.
  apply (unchanged_path_is_silent _ _ (py "a"));
    rewrite ?lookup_singleton_eq; done.
Defined.


Lemma bind_length_le {A B} (f : A → list B) (l : list A) :
  (∀ x, length (f x) ≤ 1)%nat → (length (l ≫= f) ≤ length l)%nat.
Proof.
  intros H. induction l as [|x l IH]; [done|].
  cbn. rewrite length_app. specialize (H x). simpl. lia.
Qed.

Lemma verdict_ok_iff LOG_FILE changes :
  verdict LOG_FILE changes = py "OK: No changes detected." ↔ changes = 0.
Proof. split; [apply verdict_ok|]. by intros ->. Qed.




(** C10 (amended). A path carrying the same sentinel in the baseline and
    in the scan is still reported (MISSING as missing, ERROR as error), and
    the closing message is the OK one only when every path of either store
    has, in both, one and the same token that is neither sentinel.  When
    every listed path is storable, a check that ends with the OK message
    therefore found, for every listed path, a digest, and that digest is
    the token the baseline file holds for the path. *)
Theorem sentinel_never_unchanged (home_join : str → str) (fs : str → node)
    (LOG_FILE raw : str) (d0 : disk) :
  (∀ (base scan : gmap str str) p t,
     base !! p = Some t → scan !! p = Some t →
     (t = py "MISSING" → finding_message (FMissing p) ∈ (compare base scan).1)
     ∧ (t = py "ERROR" → finding_message (FError p) ∈ (compare base scan).1))
  ∧ (∀ base scan : gmap str str,
     verdict LOG_FILE (compare base scan).2 = py "OK: No changes detected." →
     ∀ p, is_Some (base !! p) ∨ is_Some (scan !! p) →
       ∃ t, base !! p = Some t ∧ scan !! p = Some t
            ∧ t ≠ py "MISSING" ∧ t ≠ py "ERROR")
  ∧ (Forall storable (iter_list_paths home_join raw) →
     ∀ states base scan,
       cmd_check home_join fs raw d0 = Ok (states, (base, scan)) →
       verdict LOG_FILE (compare base scan).2 = py "OK: No changes detected." →
       ∃ old, get BASELINE d0 = Some old ∧ base = parse_hash_file old
         ∧ ∀ p, p ∈ iter_list_paths home_join raw →
             ∃ hex, outcome_of fs p = Ok (Digest hex) ∧ is_digest hex
                    ∧ parse_hash_file old !! p = Some hex).
Proof.
  split; [|split].
  - intros base scan p t. apply compare_sentinels.
  - intros base scan Hv%verdict_ok. by apply compare_ok_agree.
  - intros Hst states base scan Hc Hv%verdict_ok.
    unfold cmd_check in Hc. destruct d0 as [b l bt st]. cbn in Hc.
    destruct b as [old|]; [|done].
    destruct (hash_files_from_list home_join fs raw) as [out|e] eqn:Hout;
      [|done].
    cbn in Hc. injection Hc as <- <- <-.
    exists old. split; [done|]. split; [done|]. intros p Hp.
    pose proof (scan_store_lookup home_join fs raw out p Hst Hout) as Hl.
    rewrite decide_True in Hl by done. destruct Hl as (o & Ho & Hl).
    destruct (compare_ok_agree _ _ Hv p) as (t & Hb & Hs & Hm & He);
      [right; by eexists|].
    rewrite Hl in Hs. injection Hs as <-.
    pose proof (outcome_of_valid fs p o Ho) as Hvalid.
    destruct o as [hex| |]; [|done..]. by exists hex.
Qed.

(** C10, as stated, fails: the store codec drops a leading asterisk, so a
    listed path [*a] that is missing shares its key with the listed path
    [a]; the check that follows the baseline reports OK although the
    tracked path [*a] yields no digest. *)
Lemma aliased_path_reports_ok :
  let listed := py "*a" ++ [LF] ++ py "a" ++ [LF] in
  let fs := λ p : str,
    if decide (p = py "a") then IsFile (RegularFile (py "hello") NoFault)
    else NotAFile in
  iter_list_paths id listed = [py "*a"; py "a"]
  ∧ outcome_of fs (py "*a") = Ok Missing
  ∧ ∃ states0 d states base scan,
      cmd_init id fs listed (Disk None None None None) = Ok states0
      ∧ last states0 = Some d
      ∧ cmd_check id fs listed d = Ok (states, (base, scan))
      ∧ verdict (py "fic.log") (compare base scan).2
        = py "OK: No changes detected.".
Proof.
  intros listed fs. split; [reflexivity|]. split; [reflexivity|].
  eexists _, _, _, _, _. split; [vm_compute; reflexivity|].
  split; [reflexivity|]. split; [vm_compute; reflexivity|].
  vm_compute. reflexivity.
Qed.

Lemma sentinel_never_unchanged_witness :
  let store : gmap str str := {[ py "B.txt" := py "MISSING" ]} in
  finding_message (FMissing (py "B.txt")) ∈ (compare store store).1.
Proof.
  intros store.
  apply (proj1 (proj1 (sentinel_never_unchanged id (λ _, NotAFile) [] []
                         (Disk None None None None))
                  store store (py "B.txt") (py "MISSING")
                  (lookup_singleton_eq _ _) (lookup_singleton_eq _ _))).
  reflexivity.
Defined.



(** X15. The counter of [cmd_check] is the number of messages the
    comparison logged, which is at most one per path of the two stores; and
    the closing message is the OK one exactly when the counter is zero. *)
Theorem alert_count_is_exact (LOG_FILE : str) (base scan : gmap str str) :
  (compare base scan).2 = N.of_nat (length (compare base scan).1)
  ∧ (length (compare base scan).1 ≤ size (dom base ∪ dom scan))%nat
  ∧ (verdict LOG_FILE (compare base scan).2 = py "OK: No changes detected."
     ↔ (compare base scan).1 = []).
Proof.
  rewrite verdict_ok_iff, compare_phases. cbn [fst snd].
  rewrite length_fmap. split; [done|]. split.
  - rewrite length_app.
    assert (length (phase1 base scan) ≤ size (dom base))%nat as H1.
    { unfold phase1. etrans.
      - apply bind_length_le. intros [p b]. unfold classify. cbn.
        destruct (scan !! p); repeat case_decide; simpl; lia.
      - unfold sorted_items. rewrite merge_sort_Permutation.
        by rewrite length_map_to_list, size_dom. }
    assert (length (phase2 base scan) = size (dom scan ∖ dom base)) as H2.
    { unfold phase2, sorted_new_keys.
      by rewrite length_fmap, merge_sort_Permutation. }
    assert (dom base ∪ dom scan = dom base ∪ (dom scan ∖ dom base)) as ->.
    { apply set_eq. intros x. rewrite !elem_of_union, elem_of_difference.
      destruct (decide (x ∈ dom base)); tauto. }
    rewrite size_union; [lia|].
    intros x Hx [_ Hn]%elem_of_difference. done.
  - split.
    + intros H. assert (length (phase1 base scan ++ phase2 base scan) = 0%nat)
        as E by lia. apply length_zero_iff_nil in E. by rewrite E.
    + intros H%fmap_nil_inv. by rewrite H.
Qed.

(** X16. Against an empty scan every baseline path is reported as not
    scanned, and against an empty baseline every scanned path as new; the
    counter is the size of the other store. *)
Theorem empty_store_comparison (base scan : gmap str str) :
  compare base ∅
  = (finding_message <$> (FMissingNotScanned <$> (sorted_items base).*1),
     N.of_nat (size base))
  ∧ (compare ∅ scan).2 = N.of_nat (size scan)
  ∧ ∀ msg, msg ∈ (compare ∅ scan).1
           ↔ ∃ p, is_Some (scan !! p) ∧ msg = finding_message (FNew p).
Proof.
  split; [|split].
  - rewrite compare_phases.
    assert (phase2 base ∅ = []) as ->.
    { destruct (phase2 base ∅) as [|f l] eqn:E; [done|].
      assert (f ∈ phase2 base ∅) as Hin by (rewrite E; left).
      apply phase2_spec in Hin as (p & _ & [s Hs] & _).
      by rewrite lookup_empty in Hs. }
    rewrite app_nil_r.
    assert (phase1 base ∅ = FMissingNotScanned <$> (sorted_items base).*1)
      as ->.
    { unfold phase1. induction (sorted_items base) as [|[p b] l IH]; [done|].
      cbn. rewrite IH. unfold classify. by rewrite lookup_empty. }
    rewrite !length_fmap. do 2 f_equal. unfold sorted_items.
    rewrite <- length_map_to_list.
    apply Permutation_length, merge_sort_Permutation.
  - rewrite compare_phases. cbn [snd].
    assert (phase1 ∅ scan = []) as ->.
    { unfold phase1, sorted_items. by rewrite map_to_list_empty. }
    unfold phase2, sorted_new_keys. cbn [app].
    rewrite length_fmap, merge_sort_Permutation.
    rewrite dom_empty_L, difference_empty_L. f_equal. exact (size_dom scan).
  - intros msg. rewrite compare_logged. split.
    + intros (f & -> & [H|H]).
      * unfold phase1, sorted_items in H. rewrite map_to_list_empty in H.
        by apply elem_of_nil in H.
      * apply phase2_spec in H as (p & -> & Hs & _). by exists p.
    + intros (p & Hs & ->). exists (FNew p). split; [done|]. right.
      apply phase2_spec. exists p. by rewrite lookup_empty.
Qed.

(** ** The store files after a command *)




(** ** Faults while reading *)

Lemma read_length n rest :
  N.of_nat (length (read n rest).1) = N.min n (N.of_nat (length rest)).
Proof.
  revert n. induction rest as [|b rest IH]; intros n; simpl; [lia|].
  destruct (N.eqb_spec n 0) as [->|Hn]; [simpl; lia|].
  specialize (IH (N.pred n)). destruct (read (N.pred n) rest) as [c r].
  simpl in *. lia.
Qed.

(** The loop with a fault at read [j], entered at read [k]. *)
Lemma hash_chunks_read_fault n j k h rest :
  n ≠ 0 → (k ≤ j)%nat →
  hash_chunks n (ReadRaises j) k h rest
  = if decide (j = k ∨ N.of_nat (j - k - 1) * n < N.of_nat (length rest))
    then Raise OSError else Ok (SHA256.update h rest).
Proof.
  intros Hn Hk. funelim (hash_chunks n (ReadRaises j) k h rest).
  - simpl in Heq. apply bool_decide_eq_true in Heq. subst.
    by rewrite decide_True by auto.
  - simpl in Heq. apply bool_decide_eq_false in Heq.
    rewrite (read_nil _ _ _ Hn e). rewrite decide_False; [done|].
    intros [?|Hlt]; [done|]. cbn in Hlt. by apply N.nlt_0_r in Hlt.
  - simpl in Heq. apply bool_decide_eq_false in Heq.
    rewrite H by (done || lia).
    pose proof (read_app n rest) as Happ.
    pose proof (read_length n rest) as Hlen.
    rewrite e in Happ, Hlen. cbn [fst snd] in Happ, Hlen.
    assert (N.of_nat (length rest)
            = N.of_nat (length (c :: chunk)) + N.of_nat (length rest')) as Hsum
      by (rewrite <- Happ, length_app; lia).
    rewrite <- update_app, Happ.
    assert ((j = S k ∨ N.of_nat (j - S k - 1) * n < N.of_nat (length rest'))
            ↔ (j = k ∨ N.of_nat (j - k - 1) * n < N.of_nat (length rest)))
      as Hiff.
    { simpl length in *.
      destruct (decide (j = S k)) as [->|Hj].
      - replace (S k - k - 1)%nat with 0%nat by lia. split; [|auto].
        intros _. right. lia.
      - replace (N.of_nat (j - k - 1)) with (N.of_nat (j - S k - 1) + 1)
          by lia.
        split; intros [?|Hlt]; try lia; right; nia. }
    destruct (decide (j = S k ∨ _)), (decide (j = k ∨ _)); tauto || done.
Qed.

(** X18. A failure of the [k]-th call of [read] is recorded exactly when
    the loop of [sha256_of_file] reaches that call: the loop reads once per
    started chunk of the file and once more at its end; a fault scheduled
    later never happens and the digest of the file is returned. *)
Theorem read_fault_when_reached (data : bytes) (k : nat) :
  sha256_of_file (RegularFile data (ReadRaises k))
  = if decide (k = 0%nat ∨ N.of_nat (k - 1) * CHUNK < N.of_nat (length data))
    then Raise OSError else Ok (sha256_whole data).
Proof.
  unfold sha256_of_file. cbn [io content].
  rewrite hash_chunks_read_fault by (apply CHUNK_pos || lia).
  rewrite Nat.sub_0_r.
  destruct (decide (k = 0%nat ∨ _)); [done|].
  unfold sha256_whole. by rewrite hexdigest_update_new.
Qed.

Lemma read_fault_when_reached_witness :
  sha256_of_file (RegularFile (py "hello") (ReadRaises 2))
  = Ok (sha256_whole (py "hello")).
Proof.
  rewrite read_fault_when_reached. apply decide_False.
  intros [Hk|Hlt]; [discriminate Hk|]. vm_compute in Hlt. discriminate Hlt.
Defined.

(** ** The log file *)





(** X20. Removing a path that no trimmed line equals keeps every line of
    the list, only rewriting the line ends as line feeds; on an empty list
    file it leaves a single empty line. *)
Theorem remove_absent_keeps_lines (path raw : str) :
  existsb (λ line, str_eqb (strip line) path) (splitlines (read_text raw))
    = false →
  splitlines (read_text (cmd_remove path raw))
  = (if decide (raw = []) then [[]] else splitlines (read_text raw))
  ∧ cmd_remove path raw
    = (if decide (raw = []) then [LF]
       else flat_map (λ l, l ++ [LF]) (splitlines (read_text raw))).
Proof.
  intros Habs. rewrite cmd_remove_lines. cbv zeta. unfold cmd_remove.
  rewrite absent_filter_all by done.
  assert (splitlines (read_text raw) = [] ↔ raw = []) as Hnil.
  { rewrite splitlines_of_read_text. split; [|by intros ->].
    by intros [? _]%splitlines_from_nil_inv. }
  destruct (decide (raw = [])) as [->|Hraw].
  - done.
  - rewrite decide_False by (by rewrite Hnil).
    split; [done|]. apply join_terminated. by rewrite Hnil.
Qed.

Lemma remove_absent_keeps_lines_witness :
  splitlines (read_text (cmd_remove (py "b") (py "a" ++ [CR; LF] ++ py "c")))
  = splitlines (read_text (py "a" ++ [CR; LF] ++ py "c")).
Proof.
  exact (proj1 (remove_absent_keeps_lines (py "b")
                  (py "a" ++ [CR; LF] ++ py "c") eq_refl)).
Defined.
